(** * Digital sand hourglass: a shallow embedding of [gravity_sand.ino]

    The sketch keeps all of its state in globals and drives two 8x8 panels
    from a polling loop.  Here every global becomes a field of [State],
    every function that mutates globals becomes a function on [State]
    ([renderFrame] and [stepAnimation] also return the two frames they put
    on the bus), and every reading of the outside world (tilt angles, the
    duration potentiometer, [millis()]) becomes an explicit argument.
    Tones, delays and serial text are left out.

    Integers: [uint8_t] values are [Z] reduced with [u8], [unsigned long]
    values are [Z] reduced with [u32].  The [int] coordinates of the grain
    and of the hole are only ever decremented under a [> 0] guard, so no
    signed wrap-around is involved and they are plain [Z].

    Arrays are lists indexed by [Z] through [aget]/[aset].  C leaves
    out-of-range accesses undefined; the model reads a default there and
    ignores the write.  [Inv_bounds] shows that the grain never
    brings the sketch there. *)

From stdpp Require Import base numbers list sorting.

Local Open Scope Z_scope.

(** ** Machine integers and arrays *)

Definition u8 (x : Z) : Z := x mod 256.
Definition u32 (x : Z) : Z := x mod 2 ^ 32.

Definition aget {A} (d : A) (l : list A) (i : Z) : A :=
  if decide (0 ≤ i) then default d (l !! Z.to_nat i) else d.

Definition aset {A} (l : list A) (i : Z) (x : A) : list A :=
  if decide (0 ≤ i) then <[Z.to_nat i := x]> l else l.

(** [for (int i = lo; i < hi; i++) body] *)
Definition for_loop {S} (lo hi : Z) (body : Z → S → S) (s : S) : S :=
  foldl (λ acc i, body i acc) s (seqZ lo (hi - lo)).

(** [x & (1 << c)] used as a condition *)
Definition bit_set (x c : Z) : bool := negb (Z.land x (Z.shiftl 1 c) =? 0).

(** [x |= (1 << c)] and [x &= ~(1 << c)] on a [uint8_t] *)
Definition or_bit (x c : Z) : Z := u8 (Z.lor x (Z.shiftl 1 c)).
Definition clear_bit (x c : Z) : Z := u8 (Z.land x (Z.lnot (Z.shiftl 1 c))).

(** ** Constants *)

Definition TOP_ADDR : Z := 18.
Definition BOT_ADDR : Z := 19.
Definition TOP_ROT_DEG : Z := 90.
Definition BOT_ROT_DEG : Z := 270.
Definition NECK_ROW : Z := 7.
Definition NECK_COL : Z := 7.
Definition SAND_R : Z := 0.
Definition SAND_G : Z := 255.
Definition SAND_B : Z := 0.
Definition ACC_THRESHOLD_LOW : Z := -25.
Definition ACC_THRESHOLD_HIGH : Z := 25.
Definition FLIP_DEBOUNCE_MS : Z := 800.

(** ** Orientation mapper *)

(** C's [%] truncates towards zero, which is [Z.rem]. *)
Definition rotate8 (x y deg : Z) : Z * Z :=
  let deg := Z.rem (Z.rem deg 360 + 360) 360 in
  if deg =? 0 then (x, y)
  else if deg =? 90 then (u8 (7 - y), x)
  else if deg =? 180 then (u8 (7 - x), u8 (7 - y))
  else if deg =? 270 then (y, u8 (7 - x))
  else (x, y).

Definition applyRotation (src : list Z) (deg : Z) : list Z :=
  let dst := replicate 8 0 in
  for_loop 0 8 (λ r dst,
    for_loop 0 8 (λ c dst,
      if bit_set (aget 0 src r) c then
        let '(rx, ry) := rotate8 c r deg in
        aset dst ry (or_bit (aget 0 dst ry) rx)
      else dst) dst) dst.

(** ** Drain-order generator *)

Record Node := mkNode { node_r : Z; node_c : Z; node_d : Z }.

Definition node0 : Node := mkNode 0 0 0.

(** The cells of anti-diagonal [s], in the order the collecting loop
    meets them ([nodes[0..n)]). *)
Definition collectDiagonal (s : Z) : list Node :=
  for_loop 0 8 (λ r nodes,
    let c := s - r in
    if (0 <=? c) && (c <? 8) then
      let diff := r - c in
      let diff := if diff <? 0 then - diff else diff in
      nodes ++ [mkNode (u8 r) (u8 c) (u8 diff)]
    else nodes) [].

(** The exchange sort of the sketch on [nodes[0..n)]. *)
Definition sortNodes (nodes : list Node) : list Node :=
  let n := Z.of_nat (length nodes) in
  for_loop 0 (n - 1) (λ i nodes,
    for_loop (i + 1) n (λ j nodes,
      if node_d (aget node0 nodes j) <? node_d (aget node0 nodes i) then
        let tmp := aget node0 nodes i in
        let nodes := aset nodes i (aget node0 nodes j) in
        aset nodes j tmp
      else nodes) nodes) nodes.

(** Loop state of [buildOrderDiagonal]: the two order arrays and [idx]. *)
Definition pushNodes (nodes : list Node) (acc : list Z * list Z * Z)
  : list Z * list Z * Z :=
  let n := Z.of_nat (length nodes) in
  for_loop 0 n (λ i '(oR, oC, idx),
    if idx <? 64 then
      (aset oR idx (node_r (aget node0 nodes i)),
       aset oC idx (node_c (aget node0 nodes i)),
       idx + 1)
    else (oR, oC, idx)) acc.

Definition buildOrderDiagonal (oR oC : list Z) : list Z * list Z :=
  let '(oR, oC, _) :=
    for_loop 0 15 (λ s acc, pushNodes (sortNodes (collectDiagonal s)) acc)
      (oR, oC, 0) in
  (oR, oC).

(** ** Duration selection *)

Definition getDurationFromPot (v : Z) : Z :=
  if v <? 170 then 30000
  else if v <? 410 then 60000
  else if v <? 600 then 120000
  else if v <? 820 then 300000
  else if v <? 900 then 600000
  else 1800000.

(** ** The globals of the sketch *)

Record State := mkState {
  topToBottom : bool;
  lastFlipMs : Z;
  lastGravity : Z;
  targetMs : Z;
  stepIntervalMs : Z;
  lastStepMs : Z;
  finished : bool;
  maskX : list Z;
  maskY : list Z;
  yStatic : list (list bool);
  grainActive : bool;
  grRow : Z;
  grCol : Z;
  sideToggle : bool;
  orderRow : list Z;
  orderCol : list Z;
  grainIndex : Z;
  topHoleActive : bool;
  holeRow : Z;
  holeCol : Z
}.

(** Assignments to a single global. *)
Definition set_topToBottom (v : bool) (st : State) : State :=
  mkState v (lastFlipMs st) (lastGravity st) (targetMs st)
    (stepIntervalMs st) (lastStepMs st) (finished st) (maskX st) (maskY st)
    (yStatic st) (grainActive st) (grRow st) (grCol st) (sideToggle st)
    (orderRow st) (orderCol st) (grainIndex st) (topHoleActive st)
    (holeRow st) (holeCol st).
Definition set_lastFlipMs (v : Z) (st : State) : State :=
  mkState (topToBottom st) v (lastGravity st) (targetMs st)
    (stepIntervalMs st) (lastStepMs st) (finished st) (maskX st) (maskY st)
    (yStatic st) (grainActive st) (grRow st) (grCol st) (sideToggle st)
    (orderRow st) (orderCol st) (grainIndex st) (topHoleActive st)
    (holeRow st) (holeCol st).
Definition set_lastGravity (v : Z) (st : State) : State :=
  mkState (topToBottom st) (lastFlipMs st) v (targetMs st)
    (stepIntervalMs st) (lastStepMs st) (finished st) (maskX st) (maskY st)
    (yStatic st) (grainActive st) (grRow st) (grCol st) (sideToggle st)
    (orderRow st) (orderCol st) (grainIndex st) (topHoleActive st)
    (holeRow st) (holeCol st).
Definition set_targetMs (v : Z) (st : State) : State :=
  mkState (topToBottom st) (lastFlipMs st) (lastGravity st) v
    (stepIntervalMs st) (lastStepMs st) (finished st) (maskX st) (maskY st)
    (yStatic st) (grainActive st) (grRow st) (grCol st) (sideToggle st)
    (orderRow st) (orderCol st) (grainIndex st) (topHoleActive st)
    (holeRow st) (holeCol st).
Definition set_stepIntervalMs (v : Z) (st : State) : State :=
  mkState (topToBottom st) (lastFlipMs st) (lastGravity st) (targetMs st) v
    (lastStepMs st) (finished st) (maskX st) (maskY st) (yStatic st)
    (grainActive st) (grRow st) (grCol st) (sideToggle st) (orderRow st)
    (orderCol st) (grainIndex st) (topHoleActive st) (holeRow st)
    (holeCol st).
Definition set_lastStepMs (v : Z) (st : State) : State :=
  mkState (topToBottom st) (lastFlipMs st) (lastGravity st) (targetMs st)
    (stepIntervalMs st) v (finished st) (maskX st) (maskY st) (yStatic st)
    (grainActive st) (grRow st) (grCol st) (sideToggle st) (orderRow st)
    (orderCol st) (grainIndex st) (topHoleActive st) (holeRow st)
    (holeCol st).
Definition set_finished (v : bool) (st : State) : State :=
  mkState (topToBottom st) (lastFlipMs st) (lastGravity st) (targetMs st)
    (stepIntervalMs st) (lastStepMs st) v (maskX st) (maskY st) (yStatic st)
    (grainActive st) (grRow st) (grCol st) (sideToggle st) (orderRow st)
    (orderCol st) (grainIndex st) (topHoleActive st) (holeRow st)
    (holeCol st).
Definition set_maskX (v : list Z) (st : State) : State :=
  mkState (topToBottom st) (lastFlipMs st) (lastGravity st) (targetMs st)
    (stepIntervalMs st) (lastStepMs st) (finished st) v (maskY st)
    (yStatic st) (grainActive st) (grRow st) (grCol st) (sideToggle st)
    (orderRow st) (orderCol st) (grainIndex st) (topHoleActive st)
    (holeRow st) (holeCol st).
Definition set_maskY (v : list Z) (st : State) : State :=
  mkState (topToBottom st) (lastFlipMs st) (lastGravity st) (targetMs st)
    (stepIntervalMs st) (lastStepMs st) (finished st) (maskX st) v
    (yStatic st) (grainActive st) (grRow st) (grCol st) (sideToggle st)
    (orderRow st) (orderCol st) (grainIndex st) (topHoleActive st)
    (holeRow st) (holeCol st).
Definition set_yStatic (v : list (list bool)) (st : State) : State :=
  mkState (topToBottom st) (lastFlipMs st) (lastGravity st) (targetMs st)
    (stepIntervalMs st) (lastStepMs st) (finished st) (maskX st) (maskY st)
    v (grainActive st) (grRow st) (grCol st) (sideToggle st) (orderRow st)
    (orderCol st) (grainIndex st) (topHoleActive st) (holeRow st)
    (holeCol st).
Definition set_grainActive (v : bool) (st : State) : State :=
  mkState (topToBottom st) (lastFlipMs st) (lastGravity st) (targetMs st)
    (stepIntervalMs st) (lastStepMs st) (finished st) (maskX st) (maskY st)
    (yStatic st) v (grRow st) (grCol st) (sideToggle st) (orderRow st)
    (orderCol st) (grainIndex st) (topHoleActive st) (holeRow st)
    (holeCol st).
Definition set_grRow (v : Z) (st : State) : State :=
  mkState (topToBottom st) (lastFlipMs st) (lastGravity st) (targetMs st)
    (stepIntervalMs st) (lastStepMs st) (finished st) (maskX st) (maskY st)
    (yStatic st) (grainActive st) v (grCol st) (sideToggle st) (orderRow st)
    (orderCol st) (grainIndex st) (topHoleActive st) (holeRow st)
    (holeCol st).
Definition set_grCol (v : Z) (st : State) : State :=
  mkState (topToBottom st) (lastFlipMs st) (lastGravity st) (targetMs st)
    (stepIntervalMs st) (lastStepMs st) (finished st) (maskX st) (maskY st)
    (yStatic st) (grainActive st) (grRow st) v (sideToggle st) (orderRow st)
    (orderCol st) (grainIndex st) (topHoleActive st) (holeRow st)
    (holeCol st).
Definition set_sideToggle (v : bool) (st : State) : State :=
  mkState (topToBottom st) (lastFlipMs st) (lastGravity st) (targetMs st)
    (stepIntervalMs st) (lastStepMs st) (finished st) (maskX st) (maskY st)
    (yStatic st) (grainActive st) (grRow st) (grCol st) v (orderRow st)
    (orderCol st) (grainIndex st) (topHoleActive st) (holeRow st)
    (holeCol st).
Definition set_orderRow (v : list Z) (st : State) : State :=
  mkState (topToBottom st) (lastFlipMs st) (lastGravity st) (targetMs st)
    (stepIntervalMs st) (lastStepMs st) (finished st) (maskX st) (maskY st)
    (yStatic st) (grainActive st) (grRow st) (grCol st) (sideToggle st) v
    (orderCol st) (grainIndex st) (topHoleActive st) (holeRow st)
    (holeCol st).
Definition set_orderCol (v : list Z) (st : State) : State :=
  mkState (topToBottom st) (lastFlipMs st) (lastGravity st) (targetMs st)
    (stepIntervalMs st) (lastStepMs st) (finished st) (maskX st) (maskY st)
    (yStatic st) (grainActive st) (grRow st) (grCol st) (sideToggle st)
    (orderRow st) v (grainIndex st) (topHoleActive st) (holeRow st)
    (holeCol st).
Definition set_grainIndex (v : Z) (st : State) : State :=
  mkState (topToBottom st) (lastFlipMs st) (lastGravity st) (targetMs st)
    (stepIntervalMs st) (lastStepMs st) (finished st) (maskX st) (maskY st)
    (yStatic st) (grainActive st) (grRow st) (grCol st) (sideToggle st)
    (orderRow st) (orderCol st) v (topHoleActive st) (holeRow st)
    (holeCol st).
Definition set_topHoleActive (v : bool) (st : State) : State :=
  mkState (topToBottom st) (lastFlipMs st) (lastGravity st) (targetMs st)
    (stepIntervalMs st) (lastStepMs st) (finished st) (maskX st) (maskY st)
    (yStatic st) (grainActive st) (grRow st) (grCol st) (sideToggle st)
    (orderRow st) (orderCol st) (grainIndex st) v (holeRow st) (holeCol st).
Definition set_holeRow (v : Z) (st : State) : State :=
  mkState (topToBottom st) (lastFlipMs st) (lastGravity st) (targetMs st)
    (stepIntervalMs st) (lastStepMs st) (finished st) (maskX st) (maskY st)
    (yStatic st) (grainActive st) (grRow st) (grCol st) (sideToggle st)
    (orderRow st) (orderCol st) (grainIndex st) (topHoleActive st) v
    (holeCol st).
Definition set_holeCol (v : Z) (st : State) : State :=
  mkState (topToBottom st) (lastFlipMs st) (lastGravity st) (targetMs st)
    (stepIntervalMs st) (lastStepMs st) (finished st) (maskX st) (maskY st)
    (yStatic st) (grainActive st) (grRow st) (grCol st) (sideToggle st)
    (orderRow st) (orderCol st) (grainIndex st) (topHoleActive st)
    (holeRow st) v.

(** [yStatic[r][c]] and [yStatic[r][c] = v] *)
Definition yget (ys : list (list bool)) (r c : Z) : bool :=
  aget false (aget [] ys r) c.

Definition yset (ys : list (list bool)) (r c : Z) (v : bool)
  : list (list bool) :=
  aset ys r (aset (aget [] ys r) c v).

(** The bounds test written in front of every grid access by coordinates. *)
Definition inGrid (r c : Z) : bool :=
  (0 <=? r) && (r <? 8) && (0 <=? c) && (c <? 8).

(** ** Frame compositor *)

(** A frame as put on the bus: the panel address and the 11 bytes. *)
Definition Frame : Type := Z * list Z.

Definition sendFrame (addr : Z) (mask : list Z) : Frame :=
  (addr,
   for_loop 0 8 (λ i out, out ++ [aget 0 mask i]) []
     ++ [SAND_R; SAND_G; SAND_B]).

Definition buildMaskY (st : State) : State :=
  let m := for_loop 0 8 (λ r m, aset m r 0) (maskY st) in
  let m :=
    for_loop 0 8 (λ r m,
      for_loop 0 8 (λ c m,
        if yget (yStatic st) r c then aset m r (or_bit (aget 0 m r) c)
        else m) m) m in
  let m :=
    if grainActive st then
      if inGrid (grRow st) (grCol st)
      then aset m (grRow st) (or_bit (aget 0 m (grRow st)) (grCol st))
      else m
    else m in
  set_maskY m st.

Definition renderFrame (st : State) : State * list Frame :=
  let st := buildMaskY st in
  let tempX := maskX st in
  let tempY := maskY st in
  let tempX :=
    if topHoleActive st then
      if inGrid (holeRow st) (holeCol st)
      then aset tempX (holeRow st)
             (clear_bit (aget 0 tempX (holeRow st)) (holeCol st))
      else tempX
    else tempX in
  let '(topMask, botMask) :=
    if topToBottom st
    then (applyRotation tempX TOP_ROT_DEG, applyRotation tempY BOT_ROT_DEG)
    else (applyRotation tempY TOP_ROT_DEG, applyRotation tempX BOT_ROT_DEG) in
  (st, [sendFrame TOP_ADDR topMask; sendFrame BOT_ADDR botMask]).

(** ** Cycle controller *)

(** [pot] is what [analogRead] returns and [now] what [millis()] returns
    inside the call.  The tones and the serial text are not modelled. *)
Definition startNewCycle (dirTopToBottom : bool) (pot now : Z) (st : State)
  : State :=
  let st := set_topToBottom dirTopToBottom st in
  let st := set_finished false st in
  let st := set_grainIndex 0 st in
  let st := set_grainActive false st in
  let st := set_sideToggle false st in
  let st := set_topHoleActive false st in
  let st :=
    for_loop 0 8 (λ i st,
      set_maskY (aset (maskY st) i 0) (set_maskX (aset (maskX st) i 255) st))
      st in
  let st :=
    for_loop 0 8 (λ r st,
      for_loop 0 8 (λ c st, set_yStatic (yset (yStatic st) r c false) st) st)
      st in
  let st := set_targetMs (getDurationFromPot pot) st in
  let totalFrames := 64 * 10 in
  let totalFrames := if totalFrames =? 0 then 1 else totalFrames in
  let st := set_stepIntervalMs (targetMs st / totalFrames) st in
  let st :=
    if stepIntervalMs st =? 0 then set_stepIntervalMs 1 st else st in
  set_lastStepMs now st.

(** [x], [y] are the two tilt angles after their conversion to [int]. *)
Definition getGravity (x y : Z) (st : State) : Z :=
  if y <? ACC_THRESHOLD_LOW then 90
  else if x >? ACC_THRESHOLD_HIGH then 0
  else if y >? ACC_THRESHOLD_HIGH then 270
  else if x <? ACC_THRESHOLD_LOW then 180
  else lastGravity st.

(** True when this call of [checkFlip] recognises a flip. *)
Definition flipRecognized (g now : Z) (st : State) : bool :=
  negb (eqb (g =? 90) (topToBottom st))
  && (u32 (now - lastFlipMs st) >? FLIP_DEBOUNCE_MS).

Definition checkFlip (x y now pot nowCycle : Z) (st : State) : State :=
  let g := getGravity x y st in
  let newDir := (g =? 90) in
  let st :=
    if flipRecognized g now st
    then startNewCycle newDir pot nowCycle (set_lastFlipMs now st)
    else st in
  set_lastGravity g st.

(** ** Grain motion engine and refill hole *)

(** First branch of [stepAnimation]: drain one source cell, spawn the
    grain and the hole at the neck. *)
Definition spawnGrain (st : State) : State :=
  let r := aget 0 (orderRow st) (grainIndex st) in
  let c := aget 0 (orderCol st) (grainIndex st) in
  let st :=
    set_maskX (aset (maskX st) r (clear_bit (aget 0 (maskX st) r) c)) st in
  let st := set_grRow NECK_ROW st in
  let st := set_grCol NECK_COL st in
  let st := set_grainActive true st in
  let st := set_topHoleActive true st in
  let st := set_holeRow NECK_ROW st in
  set_holeCol NECK_COL st.

(** The movement attempt of an active grain; the boolean is [moved]. *)
Definition moveGrain (st : State) : State * bool :=
  if (grRow st >? 0) && (grCol st >? 0)
     && negb (yget (yStatic st) (grRow st - 1) (grCol st - 1))
  then (set_grCol (grCol st - 1) (set_grRow (grRow st - 1) st), true)
  else
    let canLeft :=
      (grCol st >? 0) && negb (yget (yStatic st) (grRow st) (grCol st - 1)) in
    let canRight :=
      (grRow st >? 0) && negb (yget (yStatic st) (grRow st - 1) (grCol st)) in
    if canLeft || canRight then
      let '(choice, st) :=
        if canLeft && canRight
        then ((if sideToggle st then 1 else -1),
              set_sideToggle (negb (sideToggle st)) st)
        else if canLeft then (-1, st)
        else (1, st) in
      if choice =? -1 then (set_grCol (grCol st - 1) st, true)
      else if choice =? 1 then (set_grRow (grRow st - 1) st, true)
      else (st, false)
    else (st, false).

(** The grain could not move: it becomes part of [yStatic]. *)
Definition settleGrain (st : State) : State :=
  let st :=
    if inGrid (grRow st) (grCol st)
    then set_yStatic (yset (yStatic st) (grRow st) (grCol st) true) st
    else st in
  let st := set_grainActive false st in
  let st := set_grainIndex (u8 (grainIndex st + 1)) st in
  if grainIndex st >=? 64 then set_finished true st else st.

Definition moveHole (st : State) : State :=
  if topHoleActive st then
    if (holeRow st >? 0) && (holeCol st >? 0)
    then set_holeCol (holeCol st - 1) (set_holeRow (holeRow st - 1) st)
    else set_topHoleActive false st
  else st.

Definition stepAnimation (st : State) : State * list Frame :=
  if finished st then renderFrame st
  else
    let st :=
      if negb (grainActive st) && (grainIndex st <? 64) then spawnGrain st
      else if grainActive st then
        let '(st, moved) := moveGrain st in
        if negb moved then settleGrain st else st
      else st in
    let st := moveHole st in
    renderFrame st.

(** The state after one simulation tick. *)
Definition step (st : State) : State := (stepAnimation st).1.

(** ** Start-up and the polling loop *)

(** The globals as their initialisers leave them. *)
Definition boot : State :=
  mkState true 0 0 0 0 0 false
    (replicate 8 0) (replicate 8 0) (replicate 8 (replicate 8 false))
    false NECK_ROW NECK_COL false
    (replicate 64 0) (replicate 64 0) 0
    false NECK_ROW NECK_COL.

Definition setup (x y pot now : Z) : State :=
  let st := boot in
  let '(oR, oC) := buildOrderDiagonal (orderRow st) (orderCol st) in
  let st := set_orderCol oC (set_orderRow oR st) in
  let st := set_lastGravity (getGravity x y st) st in
  let dir := (lastGravity st =? 90) in
  startNewCycle dir pot now st.

(** What one pass of [loop] reads from the outside world. *)
Record Inputs := mkInputs {
  angleX : Z; angleY : Z; potTime : Z;
  millisFlip : Z; millisCycle : Z; millisLoop : Z
}.

Definition loop (inp : Inputs) (st : State) : State :=
  let st :=
    checkFlip (angleX inp) (angleY inp) (millisFlip inp) (potTime inp)
      (millisCycle inp) st in
  let now := millisLoop inp in
  if u32 (now - lastStepMs st) >=? stepIntervalMs st
  then step (set_lastStepMs now st)
  else st.

(** The states a run can be in between two passes of [loop]. *)
Inductive reachable : State → Prop :=
  | reach_setup x y pot now : reachable (setup x y pot now)
  | reach_loop inp st : reachable st → reachable (loop inp st).

(** [n] simulation ticks in a row, with no flip in between. *)
Definition ticks (n : nat) (st : State) : State := Nat.iter n step st.

(** The drain order as a sequence of (row, col) pairs. *)
Definition drainOrder (st : State) : list (Z * Z) :=
  zip (orderRow st) (orderCol st).

(** All 64 cells of the grid, row by row. *)
Definition cells : list (Z * Z) :=
  r ← seqZ 0 8; c ← seqZ 0 8; [(r, c)].

(** Anti-diagonal index and distance from the main diagonal of a cell. *)
Definition cell_s (p : Z * Z) : Z := p.1 + p.2.
Definition cell_d (p : Z * Z) : Z := Z.abs (p.1 - p.2).

(** [p] may come before [q] in the drain order. *)
Definition drain_le (p q : Z * Z) : Prop :=
  cell_s p < cell_s q ∨ (cell_s p = cell_s q ∧ cell_d p ≤ cell_d q).

Definition drain_leb (p q : Z * Z) : bool :=
  (cell_s p <? cell_s q) || ((cell_s p =? cell_s q) && (cell_d p <=? cell_d q)).

Fixpoint sortedb (l : list (Z * Z)) : bool :=
  match l with
  | [] => true
  | p :: l => forallb (drain_leb p) l && sortedb l
  end.

(** An 8x8 array of booleans. *)
Definition yshape (ys : list (list bool)) : Prop :=
  length ys = 8%nat ∧ Forall (λ row, length row = 8%nat) ys.

(** The step interval [startNewCycle] derives from a pot reading. *)
Definition stepIntervalOf (pot : Z) : Z :=
  let t := getDurationFromPot pot / 640 in if t =? 0 then 1 else t.

(** ** Counting sand *)

Fixpoint count_if {A} (f : A → bool) (l : list A) : nat :=
  match l with
  | [] => 0
  | x :: l => (if f x then 1 else 0) + count_if f l
  end%nat.

(** Lit cells of a row-mask bitmap, true cells of [yStatic]. *)
Definition countX (m : list Z) : nat :=
  count_if (λ p, bit_set (aget 0 m p.1) p.2) cells.

Definition countY (ys : list (list bool)) : nat :=
  count_if (λ p, yget ys p.1 p.2) cells.

(** Sand in the source field, settled sand, and the grain in flight. *)
Definition mass (st : State) : nat :=
  (countX (maskX st) + countY (yStatic st)
   + (if grainActive st then 1 else 0))%nat.

(** ** Invariant of the simulation *)

(** The order table [setup] computes. *)
Definition orderTable : list Z * list Z :=
  buildOrderDiagonal (replicate 64 0) (replicate 64 0).

(** The assignment [maskX[r] &= ~(1 << c)] of a spawn, for entry [idx]
    of the order table. *)
Definition drainCell (oR oC : list Z) (idx : Z) (m : list Z) : list Z :=
  let r := aget 0 oR idx in
  let c := aget 0 oC idx in
  aset m r (clear_bit (aget 0 m r) c).

(** The source field after [k] spawns of a cycle. *)
Fixpoint drained (k : nat) : list Z :=
  match k with
  | O => replicate 8 255
  | S k => drainCell orderTable.1 orderTable.2 (Z.of_nat k) (drained k)
  end.

(** Settled sand is closed under "one row down" and "one column left":
    the heap has no overhang. *)
Definition downset (ys : list (list bool)) : Prop :=
  ∀ r c, 0 ≤ r ≤ 7 → 0 ≤ c ≤ 7 → yget ys r c = true →
    (0 < r → yget ys (r - 1) c = true) ∧ (0 < c → yget ys r (c - 1) = true).

Definition b2z (b : bool) : Z := if b then 1 else 0.

(** Everything the invariant says apart from [maskY] being up to date. *)
Record InvCore (st : State) : Prop := {
  inv_maskY_len : length (maskY st) = 8%nat;
  inv_yshape : yshape (yStatic st);
  inv_row : 0 ≤ grRow st ≤ 7;
  inv_col : 0 ≤ grCol st ≤ 7;
  inv_orderRow : orderRow st = orderTable.1;
  inv_orderCol : orderCol st = orderTable.2;
  inv_index : 0 ≤ grainIndex st ≤ 64;
  inv_active : grainActive st = true → grainIndex st < 64;
  inv_finished : finished st = (grainIndex st >=? 64);
  inv_maskX :
    maskX st = drained (Z.to_nat (grainIndex st + b2z (grainActive st)));
  inv_count : Z.of_nat (countY (yStatic st)) = grainIndex st;
  inv_downset : downset (yStatic st);
  inv_free :
    grainActive st = true → yget (yStatic st) (grRow st) (grCol st) = false
}.

Definition Inv (st : State) : Prop :=
  InvCore st ∧ maskY (buildMaskY st) = maskY st.

(** The fields the invariant reads. *)
Definition sand (st : State) :=
  (finished st, maskX st, length (maskY st), yStatic st, grainActive st,
   grRow st, grCol st, orderRow st, orderCol st, grainIndex st).

(** The three kinds of tick of a running cycle, seen on the sand: a spawn
    drains the next cell of the order table and puts the grain on the
    neck; a move takes the grain to one of its three neighbour cells
    (diagonal, left, down), which is free; a settle happens only when
    none of the three is on the grid and free, and turns the grain's
    cell into settled sand. *)
Inductive tick_kind (st st' : State) : Prop :=
  | tick_spawn :
      grainActive st = false → grainActive st' = true →
      maskX st' =
        drainCell (orderRow st) (orderCol st) (grainIndex st) (maskX st) →
      (countX (maskX st') + 1 = countX (maskX st))%nat →
      yStatic st' = yStatic st →
      grRow st' = NECK_ROW → grCol st' = NECK_COL →
      tick_kind st st'
  | tick_move :
      grainActive st = true → grainActive st' = true →
      maskX st' = maskX st → yStatic st' = yStatic st →
      (grRow st' = grRow st - 1 ∧ grCol st' = grCol st - 1)
      ∨ (grRow st' = grRow st ∧ grCol st' = grCol st - 1)
      ∨ (grRow st' = grRow st - 1 ∧ grCol st' = grCol st) →
      0 ≤ grRow st' → 0 ≤ grCol st' →
      yget (yStatic st) (grRow st') (grCol st') = false →
      tick_kind st st'
  | tick_settle :
      grainActive st = true → grainActive st' = false →
      maskX st' = maskX st →
      yget (yStatic st) (grRow st) (grCol st) = false →
      yStatic st' = yset (yStatic st) (grRow st) (grCol st) true →
      countY (yStatic st') = S (countY (yStatic st)) →
      (0 < grRow st → 0 < grCol st →
       yget (yStatic st) (grRow st - 1) (grCol st - 1) = true) →
      (0 < grCol st → yget (yStatic st) (grRow st) (grCol st - 1) = true) →
      (0 < grRow st → yget (yStatic st) (grRow st - 1) (grCol st) = true) →
      tick_kind st st'.

(** Consecutive passes of [loop], one per element of [inps]. *)
Definition runLoop (inps : list Inputs) (st : State) : State :=
  foldl (λ s inp, loop inp s) st inps.

(** A device left tilted at a steady -30 degrees and polled every 46 ms. *)
Definition steadyInputs (n : Z) : list Inputs :=
  (λ k, mkInputs 0 (-30) 150 (46 * k) 0 (46 * k)) <$> seqZ 1 n.

(** ** The refill hole *)

(** The next tick spawns a grain (and with it the hole). *)
Definition spawnDue (st : State) : bool :=
  negb (finished st) && negb (grainActive st) && (grainIndex st <? 64).

Definition hole (st : State) : bool * Z * Z :=
  (topHoleActive st, holeRow st, holeCol st).

(** The hole spawned by the next tick is one step further along the
    diagonal after each of the first seven ticks and is switched off by
    the eighth. *)
Definition hole_traverses (st : State) : Prop :=
  (∀ k : nat, (1 ≤ k ≤ 7)%nat →
     hole (ticks k st) = (true, 7 - Z.of_nat k, 7 - Z.of_nat k)) ∧
  topHoleActive (ticks 8 st) = false.

(** What [moveHole] does to the hole. *)
Definition advanceHole (h : bool * Z * Z) : bool * Z * Z :=
  let '(active, r, c) := h in
  if active then
    if (r >? 0) && (c >? 0) then (true, r - 1, c - 1) else (false, r, c)
  else h.

(** A tick of a running cycle that spawns nothing. *)
Definition quietTick (st : State) : bool :=
  negb (finished st) && negb (spawnDue st).

(** ** Bitmaps *)

(** Bit [c] of row [r] of a row-mask bitmap. *)
Definition bitAt (m : list Z) (r c : Z) : bool := Z.testbit (aget 0 m r) c.

(** Eight row masks, each a [uint8_t]. *)
Definition bitmap (m : list Z) : Prop :=
  length m = 8%nat ∧ Forall (λ b, 0 ≤ b < 256) m.

(** Body of the inner loop of [applyRotation], for cell [(r, c)]. *)
Definition plot (src : list Z) (deg : Z) (r c : Z) (dst : list Z) : list Z :=
  if bit_set (aget 0 src r) c then
    let '(rx, ry) := rotate8 c r deg in
    aset dst ry (or_bit (aget 0 dst ry) rx)
  else dst.

(** The state [n] polls after power-up of that device. *)
Definition steadyRun (n : Z) : State :=
  runLoop (steadyInputs n) (setup 0 (-30) 150 0).

(** The cell of the source bitmap that [applyRotation] shows at row [r],
    bit [c] of its result. *)
Definition sourceCell (deg r c : Z) : Z * Z :=
  let d := deg mod 360 in
  if d =? 90 then (7 - c, r)
  else if d =? 180 then (7 - r, 7 - c)
  else if d =? 270 then (c, 7 - r)
  else (r, c).

(** What the two logical fields show at cell [(r, c)]: the source field
    with the hole punched out, and settled sand together with the grain
    in flight. *)
Definition sourcePixel (st : State) (r c : Z) : bool :=
  bitAt (maskX st) r c
  && negb (topHoleActive st && bool_decide ((holeRow st, holeCol st) = (r, c))).

Definition targetPixel (st : State) (r c : Z) : bool :=
  yget (yStatic st) r c
  || (grainActive st && bool_decide ((grRow st, grCol st) = (r, c))).

(** The three colour bytes that close every frame. *)
Definition colourBytes : list Z := [SAND_R; SAND_G; SAND_B].

(** The fields that hold the direction, the sensor memory and the
    timestamps; a simulation tick neither reads (but for the panel
    assignment of the frames) nor writes them. *)
Definition clock (st : State) : bool * Z * Z * Z * Z * Z :=
  (topToBottom st, lastFlipMs st, lastGravity st, targetMs st,
   stepIntervalMs st, lastStepMs st).

(** The four values [getGravity] returns on its own. *)
Definition quarterTurn (g : Z) : Prop := g = 0 ∨ g = 90 ∨ g = 180 ∨ g = 270.

(** [st] with the clock fields replaced by [c]. *)
Definition setClock (c : bool * Z * Z * Z * Z * Z) (st : State) : State :=
  let '(d, lf, lg, tm, si, ls) := c in
  mkState d lf lg tm si ls (finished st) (maskX st) (maskY st) (yStatic st)
    (grainActive st) (grRow st) (grCol st) (sideToggle st) (orderRow st)
    (orderCol st) (grainIndex st) (topHoleActive st) (holeRow st)
    (holeCol st).

(** Ticks a cycle takes from its start to the finished state. *)
Definition cycleTicks : nat := 436.

(** A cycle start: everything a restart assigns, with [c] in the clock
    fields and the stale coordinates of grain and hole. *)
Definition cycleStart (c : bool * Z * Z * Z * Z * Z) (r c' hr hc : Z)
  : State :=
  let '(d, lf, lg, tm, si, ls) := c in
  mkState d lf lg tm si ls false
    (replicate 8 255) (replicate 8 0) (replicate 8 (replicate 8 false))
    false r c' false orderTable.1 orderTable.2 0 false hr hc.

(** ** Invariants of the exchange sort *)

(** The sort key of the node at place [k]. *)
Definition nodeKey (a : list Node) (k : Z) : Z := node_d (aget node0 a k).

(** The inner loop for place [i], started on [a0], with counter [J]:
    places below [i] are untouched, places from [i] on hold nodes that
    were there before, and place [i] holds a node no farther than those
    at the places already compared. *)
Definition innerSorted (orig : list Node) (i : Z) (a0 : list Node) (J : Z)
    (a : list Node) : Prop :=
  length a = length orig ∧ a ≡ₚ a0 ∧
  (∀ k, 0 ≤ k < i → aget node0 a k = aget node0 a0 k) ∧
  (∀ l, i ≤ l < Z.of_nat (length orig) →
     ∃ l', i ≤ l' < Z.of_nat (length orig)
           ∧ aget node0 a l = aget node0 a0 l') ∧
  (∀ k, i < k < J → nodeKey a i ≤ nodeKey a k).

(** The outer loop with counter [I]: the first [I] places are final. *)
Definition outerSorted (orig : list Node) (I : Z) (a : list Node) : Prop :=
  length a = length orig ∧ a ≡ₚ orig ∧
  ∀ k l, 0 ≤ k < I → k < l < Z.of_nat (length orig) →
    nodeKey a k ≤ nodeKey a l.

(** Reduces projections of updated states. *)
Ltac fields :=
  cbn [topToBottom lastFlipMs lastGravity targetMs stepIntervalMs lastStepMs
       finished maskX maskY yStatic grainActive grRow grCol sideToggle
       orderRow orderCol grainIndex topHoleActive holeRow holeCol
       set_topToBottom set_lastFlipMs set_lastGravity set_targetMs
       set_stepIntervalMs set_lastStepMs set_finished set_maskX set_maskY
       set_yStatic set_grainActive set_grRow set_grCol set_sideToggle
       set_orderRow set_orderCol set_grainIndex set_topHoleActive
       set_holeRow set_holeCol fst snd] in *.

(** * Properties *)

(** ** Duration selection *)

Lemma getDurationFromPot_breakpoints v :
  getDurationFromPot v =
    if decide (v < 170) then 30000
    else if decide (v < 410) then 60000
    else if decide (v < 600) then 120000
    else if decide (v < 820) then 300000
    else if decide (v < 900) then 600000
    else 1800000.
Proof.
  unfold getDurationFromPot.
  repeat case_decide;
    repeat match goal with
           | |- context [?a <? ?b] => destruct (Z.ltb_spec a b)
           end; try lia; reflexivity.
Qed.

Lemma startNewCycle_targetMs d pot now st :
  targetMs (startNewCycle d pot now st) = getDurationFromPot pot.
Proof.
  unfold startNewCycle. cbv zeta.
  match goal with |- context [if ?b then _ else _] => destruct b end;
    reflexivity.
Qed.

(** ** Loops and arrays *)

Lemma for_loop_ind {S} (P : S → Prop) lo hi (body : Z → S → S) s :
  P s → (∀ i s, lo ≤ i < hi → P s → P (body i s)) →
  P (for_loop lo hi body s).
Proof.
  unfold for_loop. intros Hs Hbody.
  assert (Hin : ∀ i, i ∈ seqZ lo (hi - lo) → lo ≤ i < hi).
  { intros i Hi. apply elem_of_seqZ in Hi. lia. }
  revert s Hs Hin. induction (seqZ lo (hi - lo)) as [|i l IH]; intros s Hs Hin.
  - exact Hs.
  - simpl. apply IH.
    + apply Hbody; [apply Hin; left|exact Hs].
    + intros j Hj. apply Hin. by right.
Qed.

Lemma length8_inv {A} (l : list A) :
  length l = 8%nat → ∃ a b c d e f g h, l = [a; b; c; d; e; f; g; h].
Proof.
  intros H. do 8 (destruct l as [|? l]; [discriminate|]).
  destruct l; [|discriminate]. by repeat eexists.
Qed.

Lemma yshape_inv ys :
  yshape ys →
  ∃ r0 r1 r2 r3 r4 r5 r6 r7,
    ys = [r0; r1; r2; r3; r4; r5; r6; r7] ∧
    Forall (λ row, length row = 8%nat) [r0; r1; r2; r3; r4; r5; r6; r7].
Proof.
  intros [H1 H2]. destruct (length8_inv _ H1) as (a&b&c&d&e&f&g&h&->).
  by repeat eexists.
Qed.

(** Splits a [yshape] hypothesis into 64 boolean variables. *)
Ltac explode_yshape Hs :=
  let Hr := fresh "Hr" in
  destruct (yshape_inv _ Hs) as (?&?&?&?&?&?&?&?&->&Hr);
  repeat match goal with
         | H : Forall _ (_ :: _) |- _ =>
             apply Forall_cons in H; destruct H as [? H]
         end;
  repeat match goal with
         | H : length ?r = 8%nat |- _ =>
             let E := fresh in
             destruct (length8_inv _ H) as (?&?&?&?&?&?&?&?&E);
             subst r; clear H
         end.


Lemma length_aset {A} (l : list A) i x : length (aset l i x) = length l.
Proof. unfold aset. case_decide; [apply length_insert|done]. Qed.

Lemma aget_aset_eq {A} (d : A) l i x :
  0 ≤ i < Z.of_nat (length l) → aget d (aset l i x) i = x.
Proof.
  intros Hi. unfold aget, aset. rewrite !decide_True by lia.
  rewrite list_lookup_insert_eq by lia. done.
Qed.

Lemma aget_aset_ne {A} (d : A) l i j x :
  i ≠ j → aget d (aset l i x) j = aget d l j.
Proof.
  intros Hij. unfold aget, aset. repeat case_decide; try done.
  rewrite list_lookup_insert_ne by lia. done.
Qed.

Lemma aget_length {A} (d : A) l i :
  0 ≤ i < Z.of_nat (length l) → ∃ x, l !! Z.to_nat i = Some x ∧ aget d l i = x.
Proof.
  intros Hi. destruct (lookup_lt_is_Some_2 l (Z.to_nat i)) as [x Hx]; [lia|].
  exists x. split; [done|]. unfold aget. rewrite decide_True by lia.
  by rewrite Hx.
Qed.

(** ** One tick, case by case *)

Lemma renderFrame_state st : (renderFrame st).1 = buildMaskY st.
Proof. unfold renderFrame. cbv zeta. by destruct (topToBottom _). Qed.

Lemma step_finished st : finished st = true → step st = buildMaskY st.
Proof.
  intros H. unfold step, stepAnimation. rewrite H. apply renderFrame_state.
Qed.

Lemma step_spawn st :
  finished st = false → grainActive st = false → grainIndex st < 64 →
  step st = buildMaskY (moveHole (spawnGrain st)).
Proof.
  intros Hf Ha Hi. unfold step, stepAnimation. rewrite Hf, Ha.
  destruct (Z.ltb_spec (grainIndex st) 64); [|lia]. apply renderFrame_state.
Qed.

Lemma step_idle st :
  finished st = false → grainActive st = false → 64 ≤ grainIndex st →
  step st = buildMaskY (moveHole st).
Proof.
  intros Hf Ha Hi. unfold step, stepAnimation. rewrite Hf, Ha.
  destruct (Z.ltb_spec (grainIndex st) 64); [lia|]. apply renderFrame_state.
Qed.

Lemma step_moved st :
  finished st = false → grainActive st = true → (moveGrain st).2 = true →
  step st = buildMaskY (moveHole (moveGrain st).1).
Proof.
  intros Hf Ha Hm. unfold step, stepAnimation. rewrite Hf, Ha.
  destruct (moveGrain st) as [st' moved]. simpl in Hm. subst moved.
  apply renderFrame_state.
Qed.

Lemma step_settle st :
  finished st = false → grainActive st = true → (moveGrain st).2 = false →
  step st = buildMaskY (moveHole (settleGrain (moveGrain st).1)).
Proof.
  intros Hf Ha Hm. unfold step, stepAnimation. rewrite Hf, Ha.
  destruct (moveGrain st) as [st' moved]. simpl in Hm. subst moved.
  apply renderFrame_state.
Qed.

(** What a movement attempt does: the three moves in priority order, or
    no move when all three target cells are taken or off the grid. *)
Lemma moveGrain_spec st :
  ∃ r c t moved,
    moveGrain st = (set_sideToggle t (set_grCol c (set_grRow r st)), moved) ∧
    ((moved = true ∧ r = grRow st - 1 ∧ c = grCol st - 1 ∧ t = sideToggle st ∧
      grRow st > 0 ∧ grCol st > 0)
     ∨ (moved = true ∧ r = grRow st ∧ c = grCol st - 1 ∧ grCol st > 0)
     ∨ (moved = true ∧ r = grRow st - 1 ∧ c = grCol st ∧ grRow st > 0)
     ∨ (moved = false ∧ r = grRow st ∧ c = grCol st ∧ t = sideToggle st ∧
        (grRow st > 0 → yget (yStatic st) (grRow st - 1) (grCol st) = true) ∧
        (grCol st > 0 → yget (yStatic st) (grRow st) (grCol st - 1) = true))) ∧
    (moved = true → yget (yStatic st) r c = false).
Proof.
  destruct st as [? ? ? ? ? ? ? ? ? ys ? gr gc tg ? ? ? ? ? ?].
  unfold moveGrain. fields.
  destruct (Z.gtb_spec gr 0) as [Hr|Hr];
    destruct (Z.gtb_spec gc 0) as [Hc|Hc]; cbn [andb];
    repeat match goal with
    | |- context [yget ys ?r ?c] =>
        let E := fresh "E" in destruct (yget ys r c) eqn:E
    end; cbn [negb andb orb]; try destruct tg; fields;
    cbn [Z.eqb Pos.eqb negb];
    first
      [ exists (gr - 1), (gc - 1); eexists; exists true;
        split; [reflexivity|];
        split; [left; repeat split; lia|done]
      | exists gr, (gc - 1); eexists; exists true; split; [reflexivity|];
        split; [right; left; repeat split; lia|done]
      | exists (gr - 1), gc; eexists; exists true; split; [reflexivity|];
        split; [right; right; left; repeat split; lia|done]
      | exists gr, gc; eexists; exists false; split; [reflexivity|];
        split; [right; right; right; repeat split; (done || lia)|done] ].
Qed.

(** ** Cycle start *)

(** On arrays of the right size a cycle start is a plain assignment of
    every field but the sensor memory, the coordinates and the order. *)
Lemma startNewCycle_eq d pot now st :
  length (maskX st) = 8%nat → length (maskY st) = 8%nat →
  yshape (yStatic st) →
  startNewCycle d pot now st =
    mkState d (lastFlipMs st) (lastGravity st) (getDurationFromPot pot)
      (stepIntervalOf pot) now false
      (replicate 8 255) (replicate 8 0) (replicate 8 (replicate 8 false))
      false (grRow st) (grCol st) false (orderRow st) (orderCol st) 0
      false (holeRow st) (holeCol st).
Proof.
  destruct st as [? ? ? ? ? ? ? mx my ys ? ? ? ? ? ? ? ? ? ?].
  cbn [maskX maskY yStatic lastFlipMs lastGravity grRow grCol orderRow
       orderCol holeRow holeCol].
  intros Hx Hy Hs.
  destruct (length8_inv _ Hx) as (?&?&?&?&?&?&?&?&->).
  destruct (length8_inv _ Hy) as (?&?&?&?&?&?&?&?&->).
  explode_yshape Hs.
  unfold startNewCycle, stepIntervalOf. cbv zeta.
  generalize (getDurationFromPot pot); intros t.
  cbv -[Z.div].
  destruct (t `div` 640); reflexivity.
Qed.

Lemma yshape_empty : yshape (replicate 8 (replicate 8 false)).
Proof. split; [reflexivity|]. by repeat constructor. Qed.

Lemma setup_eq x y pot now :
  setup x y pot now =
    mkState (getGravity x y boot =? 90) 0 (getGravity x y boot)
      (getDurationFromPot pot) (stepIntervalOf pot) now false
      (replicate 8 255) (replicate 8 0) (replicate 8 (replicate 8 false))
      false NECK_ROW NECK_COL false
      (buildOrderDiagonal (replicate 64 0) (replicate 64 0)).1
      (buildOrderDiagonal (replicate 64 0) (replicate 64 0)).2 0
      false NECK_ROW NECK_COL.
Proof.
  unfold setup. cbv zeta.
  change (orderRow boot) with (replicate 64 0).
  change (orderCol boot) with (replicate 64 0).
  destruct (buildOrderDiagonal _ _) as [oR oC].
  rewrite startNewCycle_eq; [reflexivity..|apply yshape_empty].
Qed.

(** C8: the duration selection is a fixed breakpoint function of the pot
    reading; a reading of 150 selects a 30000 ms cycle and a reading of 850
    a 600000 ms cycle, and that is the duration a cycle start stores. *)
Theorem duration_scenarios d now st :
  getDurationFromPot 150 = 30000 ∧
  getDurationFromPot 850 = 600000 ∧
  targetMs (startNewCycle d 150 now st) = 30000 ∧
  targetMs (startNewCycle d 850 now st) = 600000.
Proof.
  rewrite !startNewCycle_targetMs. repeat split; reflexivity.
Qed.

(** ** Drain order *)

Lemma drain_leb_le p q : drain_leb p q = true → drain_le p q.
Proof.
  unfold drain_leb, drain_le. intros H.
  apply orb_true_iff in H as [H|H]; [left; lia|right].
  apply andb_true_iff in H as [H1 H2]. lia.
Qed.

Lemma sortedb_sorted l : sortedb l = true → StronglySorted drain_le l.
Proof.
  induction l as [|p l IH]; simpl; intros H; constructor.
  - apply IH. by apply andb_true_iff in H as [_ H].
  - apply andb_true_iff in H as [H _].
    apply Forall_forall. intros q Hq.
    apply drain_leb_le. rewrite forallb_forall in H. apply H.
    by apply list_elem_of_In.
Qed.

Lemma elem_of_cells r c : (r, c) ∈ cells ↔ 0 ≤ r ≤ 7 ∧ 0 ≤ c ≤ 7.
Proof.
  unfold cells. rewrite list_elem_of_bind. split.
  - intros (r' & Hc & Hr). apply list_elem_of_bind in Hc as (c' & Hc & Hc').
    apply list_elem_of_singleton in Hc. inversion Hc; subst.
    apply elem_of_seqZ in Hr, Hc'. lia.
  - intros [Hr Hc]. exists r. split; [|apply elem_of_seqZ; lia].
    apply list_elem_of_bind. exists c. split; [by apply list_elem_of_singleton|].
    apply elem_of_seqZ; lia.
Qed.

(** C2: the drain order lists each of the 64 cells of the grid exactly once,
    in ascending anti-diagonal index [row + col] (from 0 at the first entry
    to 14 at the last) and, within an anti-diagonal, in ascending distance
    [|row - col|] from the main diagonal. *)
Theorem drain_order_diagonal x y pot now :
  let order := drainOrder (setup x y pot now) in
  length order = 64%nat ∧
  NoDup order ∧
  (∀ r c, (r, c) ∈ order ↔ 0 ≤ r ≤ 7 ∧ 0 ≤ c ≤ 7) ∧
  StronglySorted drain_le order ∧
  head order = Some (0, 0) ∧ last order = Some (7, 7).
Proof.
  intros order. subst order. rewrite setup_eq. unfold drainOrder.
  cbn [orderRow orderCol].
  set (l := zip _ _).
  assert (Hperm : ∀ p, p ∈ l ↔ p ∈ cells).
  { assert (H1 : Forall (λ p, p ∈ cells) l) by (apply (bool_decide_unpack _); vm_compute; exact I).
    assert (H2 : Forall (λ p, p ∈ l) cells) by (apply (bool_decide_unpack _); vm_compute; exact I).
    rewrite Forall_forall in H1, H2. intros p; split; auto. }
  split; [reflexivity|].
  split; [apply (bool_decide_unpack _); vm_compute; exact I|].
  split; [intros r c; rewrite Hperm; apply elem_of_cells|].
  split; [apply sortedb_sorted; vm_compute; reflexivity|].
  split; reflexivity.
Qed.

(** ** Flip detection *)

(** The scalar fields a cycle start assigns, on arbitrary arrays. *)
Lemma startNewCycle_scalars d pot now st :
  let st' := startNewCycle d pot now st in
  topToBottom st' = d ∧ finished st' = false ∧ grainIndex st' = 0 ∧
  grainActive st' = false ∧ sideToggle st' = false ∧
  topHoleActive st' = false ∧ lastFlipMs st' = lastFlipMs st ∧
  lastStepMs st' = now.
Proof.
  set (P := λ s : State,
    topToBottom s = d ∧ finished s = false ∧ grainIndex s = 0 ∧
    grainActive s = false ∧ sideToggle s = false ∧
    topHoleActive s = false ∧ lastFlipMs s = lastFlipMs st).
  unfold startNewCycle. cbv zeta.
  match goal with
  | |- context [for_loop 0 8 ?b (for_loop 0 8 ?a ?s)] =>
      assert (HP : P (for_loop 0 8 b (for_loop 0 8 a s)));
      [|generalize dependent (for_loop 0 8 b (for_loop 0 8 a s))]
  end.
  - apply for_loop_ind; [apply for_loop_ind|].
    + by repeat split.
    + intros i s _ Hs. exact Hs.
    + intros r s _ Hs. apply for_loop_ind; [exact Hs|].
      intros c s' _ Hs'. exact Hs'.
  - intros s (?&?&?&?&?&?&?).
    match goal with |- context [if ?b then _ else _] => destruct b end;
      by repeat split.
Qed.

(** C7: when the flip check at time [T] derives a direction that differs
    from the cycle's, a previous flip at [T - 500] (inside the 800 ms
    debounce) makes the check leave every field but the remembered gravity
    untouched, and a previous flip at [T - 900] makes it record the flip
    and restart the cycle in the new direction. *)
Theorem flip_debounce x y T pot nowC st :
  0 ≤ T < 2 ^ 32 →
  (getGravity x y st =? 90) ≠ topToBottom st →
  let g := getGravity x y st in
  let early := set_lastFlipMs (u32 (T - 500)) st in
  let late := set_lastFlipMs (u32 (T - 900)) st in
  (flipRecognized g T early = false ∧
   checkFlip x y T pot nowC early = set_lastGravity g early) ∧
  (flipRecognized g T late = true ∧
   checkFlip x y T pot nowC late =
     set_lastGravity g
       (startNewCycle (g =? 90) pot nowC (set_lastFlipMs T late)) ∧
   topToBottom (checkFlip x y T pot nowC late) = negb (topToBottom st) ∧
   lastFlipMs (checkFlip x y T pot nowC late) = T ∧
   finished (checkFlip x y T pot nowC late) = false ∧
   grainIndex (checkFlip x y T pot nowC late) = 0 ∧
   grainActive (checkFlip x y T pot nowC late) = false).
Proof.
  intros HT Hdir g early late.
  assert (Hne : negb (eqb (g =? 90) (topToBottom st)) = true).
  { subst g. destruct (_ =? 90), (topToBottom st); done. }
  assert (He : u32 (T - lastFlipMs early) = 500).
  { unfold early, u32. cbn. unfold u32.
    rewrite Zminus_mod_idemp_r. replace (T - (T - 500)) with 500 by lia. done. }
  assert (Hl : u32 (T - lastFlipMs late) = 900).
  { unfold late, u32. cbn. unfold u32.
    rewrite Zminus_mod_idemp_r. replace (T - (T - 900)) with 900 by lia. done. }
  assert (Fe : flipRecognized g T early = false).
  { unfold flipRecognized. rewrite He. apply andb_false_r. }
  assert (Fl : flipRecognized g T late = true).
  { unfold flipRecognized. rewrite Hl. cbn [topToBottom late set_lastFlipMs].
    rewrite Hne. done. }
  assert (Ce : checkFlip x y T pot nowC early = set_lastGravity g early).
  { unfold checkFlip. cbv zeta.
    change (getGravity x y early) with g. by rewrite Fe. }
  assert (Cl : checkFlip x y T pot nowC late =
     set_lastGravity g
       (startNewCycle (g =? 90) pot nowC (set_lastFlipMs T late))).
  { unfold checkFlip. cbv zeta.
    change (getGravity x y late) with g. by rewrite Fl. }
  split; [done|]. split; [done|]. split; [done|].
  rewrite Cl.
  pose proof (startNewCycle_scalars (g =? 90) pot nowC (set_lastFlipMs T late))
    as (H1&H2&H3&H4&H5&H6&H7&H8).
  cbn [topToBottom lastFlipMs finished grainIndex grainActive set_lastGravity].
  rewrite H1, H2, H3, H4, H7. cbn.
  repeat split. subst g. destruct (_ =? 90), (topToBottom st); done.
Qed.

Lemma flip_debounce_witness :
  0 ≤ 1000 < 2 ^ 32 ∧
  (getGravity 0 (-30) (setup 0 0 150 0) =? 90)
    ≠ topToBottom (setup 0 0 150 0) ∧
  flipRecognized 90 1000 (set_lastFlipMs 500 (setup 0 0 150 0)) = false ∧
  flipRecognized 90 1000 (set_lastFlipMs 100 (setup 0 0 150 0)) = true.
Proof.
  set (st := setup 0 0 150 0).
  assert (HT : 0 ≤ 1000 < 2 ^ 32) by lia.
  assert (Hd : (getGravity 0 (-30) st =? 90) ≠ topToBottom st).
  { subst st. rewrite setup_eq. vm_compute. discriminate. }
  pose proof (flip_debounce 0 (-30) 1000 0 1000 st HT Hd) as [[H1 _] [H2 _]].
  split; [exact HT|]. split; [exact Hd|]. split; [exact H1|exact H2].
Defined.

(** ** The settled-sand grid *)

Lemma yshape_row ys r :
  yshape ys → 0 ≤ r ≤ 7 → length (aget [] ys r) = 8%nat.
Proof.
  intros [Hl Hrows] Hr.
  destruct (aget_length (A:=list bool) [] ys r) as (row & Hrow & ->); [lia|].
  rewrite Forall_forall in Hrows. apply Hrows.
  by eapply list_elem_of_lookup_2.
Qed.

Lemma yshape_yset ys r c v : yshape ys → yshape (yset ys r c v).
Proof.
  intros Hs. pose proof Hs as [Hl Hrows]. unfold yset at 1, aset at 1.
  case_decide; [|done].
  destruct (decide (r ≤ 7)) as [Hr|Hr].
  - split; [by rewrite length_insert|].
    apply Forall_insert; [done|].
    rewrite length_aset. apply yshape_row; [done|lia].
  - rewrite list_insert_ge by lia. done.
Qed.

Lemma yget_yset_eq ys r c v :
  yshape ys → 0 ≤ r ≤ 7 → 0 ≤ c ≤ 7 → yget (yset ys r c v) r c = v.
Proof.
  intros Hs Hr Hc. unfold yget, yset.
  rewrite aget_aset_eq by (destruct Hs as [-> _]; lia).
  apply aget_aset_eq. rewrite yshape_row by done. lia.
Qed.

Lemma yget_yset_ne ys r c v r' c' :
  yshape ys → 0 ≤ r ≤ 7 → (r, c) ≠ (r', c') →
  yget (yset ys r c v) r' c' = yget ys r' c'.
Proof.
  intros Hs Hr Hne. unfold yget, yset.
  destruct (decide (r = r')) as [<-|Hrr].
  - rewrite aget_aset_eq by (destruct Hs as [-> _]; lia).
    apply aget_aset_ne. congruence.
  - by rewrite aget_aset_ne.
Qed.

(** ** Counting *)

Lemma count_if_ext {A} (f g : A → bool) l :
  (∀ x, x ∈ l → f x = g x) → count_if f l = count_if g l.
Proof.
  induction l as [|x l IH]; intros H; [done|]. simpl.
  rewrite (H x) by left. rewrite IH; [done|].
  intros y Hy. apply H. by right.
Qed.

Lemma count_if_all {A} (f : A → bool) l :
  (∀ x, x ∈ l → f x = true) → count_if f l = length l.
Proof.
  induction l as [|x l IH]; intros H; [done|]. simpl.
  rewrite (H x) by left. rewrite IH; [done|].
  intros y Hy. apply H. by right.
Qed.

(** Turning on one cell that was off adds one to the count. *)
Lemma count_if_set `{EqDecision A} (f g : A → bool) l x :
  NoDup l → x ∈ l → f x = false → g x = true →
  (∀ y, y ≠ x → g y = f y) →
  count_if g l = S (count_if f l).
Proof.
  intros Hnd Hx Hfx Hgx Hother.
  induction l as [|y l IH]; [by apply elem_of_nil in Hx|].
  apply NoDup_cons in Hnd as [Hy Hnd]. simpl.
  destruct (decide (y = x)) as [->|Hne].
  - rewrite Hfx, Hgx. simpl. f_equal. apply count_if_ext.
    intros z Hz. apply Hother. intros ->. done.
  - rewrite (Hother y Hne). apply elem_of_cons in Hx as [->|Hx]; [done|].
    rewrite IH by done. lia.
Qed.

Lemma NoDup_cells : NoDup cells.
Proof. apply (bool_decide_unpack _). vm_compute. exact I. Qed.

Lemma countY_yset ys r c :
  yshape ys → 0 ≤ r ≤ 7 → 0 ≤ c ≤ 7 → yget ys r c = false →
  countY (yset ys r c true) = S (countY ys).
Proof.
  intros Hs Hr Hc Hfree. unfold countY.
  apply (count_if_set _ _ _ (r, c)).
  - apply NoDup_cells.
  - by apply elem_of_cells.
  - done.
  - simpl. by apply yget_yset_eq.
  - intros [r' c'] Hne. simpl. apply yget_yset_ne; [done..|congruence].
Qed.

(** ** Heaps without overhang *)

Lemma downset_below ys r c r' c' :
  downset ys → yget ys r c = true →
  0 ≤ r' ≤ r → r ≤ 7 → 0 ≤ c' ≤ c → c ≤ 7 →
  yget ys r' c' = true.
Proof.
  intros Hd Hrc Hr' Hr Hc' Hc.
  assert (Hrow : ∀ n : nat, 0 ≤ r - Z.of_nat n → yget ys (r - Z.of_nat n) c = true).
  { induction n as [|n IH]; intros Hn.
    - by replace (r - Z.of_nat 0) with r by lia.
    - replace (r - Z.of_nat (S n)) with (r - Z.of_nat n - 1) by lia.
      apply (Hd (r - Z.of_nat n) c); [lia..|apply IH; lia|lia]. }
  assert (Hr'c : yget ys r' c = true).
  { replace r' with (r - Z.of_nat (Z.to_nat (r - r'))) by lia. apply Hrow. lia. }
  assert (Hcol : ∀ n : nat, 0 ≤ c - Z.of_nat n → yget ys r' (c - Z.of_nat n) = true).
  { induction n as [|n IH]; intros Hn.
    - by replace (c - Z.of_nat 0) with c by lia.
    - replace (c - Z.of_nat (S n)) with (c - Z.of_nat n - 1) by lia.
      apply (Hd r' (c - Z.of_nat n)); [lia..|apply IH; lia|lia]. }
  replace c' with (c - Z.of_nat (Z.to_nat (c - c'))) by lia. apply Hcol. lia.
Qed.

(** A heap that reaches the neck cell fills the whole grid. *)
Lemma downset_full ys :
  downset ys → yget ys 7 7 = true → countY ys = 64%nat.
Proof.
  intros Hd H77. unfold countY.
  rewrite count_if_all; [done|].
  intros [r c] Hin. apply elem_of_cells in Hin. simpl.
  apply (downset_below ys 7 7); (done || lia).
Qed.

Lemma downset_empty : downset (replicate 8 (replicate 8 false)).
Proof.
  intros r c Hr Hc H. exfalso.
  assert (r ∈ seqZ 0 8) as Hr' by (apply elem_of_seqZ; lia).
  assert (c ∈ seqZ 0 8) as Hc' by (apply elem_of_seqZ; lia).
  revert H. vm_compute in Hr', Hc'.
  repeat (apply elem_of_cons in Hr' as [->|Hr']); [..|by apply elem_of_nil in Hr'];
  repeat (apply elem_of_cons in Hc' as [->|Hc']); try (by apply elem_of_nil in Hc');
  vm_compute; discriminate.
Qed.

Lemma downset_yset ys r c :
  yshape ys → downset ys → 0 ≤ r ≤ 7 → 0 ≤ c ≤ 7 →
  (r > 0 → yget ys (r - 1) c = true) →
  (c > 0 → yget ys r (c - 1) = true) →
  downset (yset ys r c true).
Proof.
  intros Hs Hd Hr Hc Hdown Hleft.
  assert (Hmono : ∀ r' c', yget ys r' c' = true →
                           yget (yset ys r c true) r' c' = true).
  { intros r' c' H. destruct (decide ((r, c) = (r', c'))) as [[= <- <-]|Hne].
    - by apply yget_yset_eq.
    - by rewrite yget_yset_ne. }
  intros r' c' Hr' Hc' H.
  destruct (decide ((r, c) = (r', c'))) as [[= <- <-]|Hne].
  - split; intros ?; apply Hmono; [apply Hdown|apply Hleft]; lia.
  - rewrite yget_yset_ne in H by done.
    destruct (Hd r' c' Hr' Hc' H) as [H1 H2].
    split; intros ?; apply Hmono; auto.
Qed.

(** ** Preservation of the invariant *)

Lemma InvCore_sand st st' : sand st = sand st' → InvCore st → InvCore st'.
Proof.
  unfold sand. intros [= E1 E2 E3 E4 E5 E6 E7 E8 E9 E10] [].
  constructor;
    rewrite <- ?E1, <- ?E2, <- ?E3, <- ?E4, <- ?E5, <- ?E6, <- ?E7, <- ?E8,
      <- ?E9, <- ?E10; assumption.
Qed.

Lemma sand_moveHole st : sand (moveHole st) = sand st.
Proof.
  unfold moveHole.
  destruct (topHoleActive st); [|done].
  destruct (_ && _); reflexivity.
Qed.

Lemma buildMaskY_length st :
  length (maskY (buildMaskY st)) = length (maskY st).
Proof.
  unfold buildMaskY. cbv zeta. fields.
  set (m0 := for_loop 0 8 (λ r m, aset m r 0) (maskY st)).
  assert (H0 : length m0 = length (maskY st)).
  { subst m0. apply for_loop_ind; [done|].
    intros i m _ Hm. by rewrite length_aset. }
  set (m1 := for_loop 0 8 _ m0).
  assert (H1 : length m1 = length (maskY st)).
  { subst m1. apply for_loop_ind; [done|].
    intros r m _ Hm. apply for_loop_ind; [done|].
    intros c m' _ Hm'. destruct (yget _ _ _); [|done].
    by rewrite length_aset. }
  destruct (grainActive st); [|done].
  destruct (inGrid _ _); [|done]. by rewrite length_aset.
Qed.

Lemma sand_buildMaskY st : sand (buildMaskY st) = sand st.
Proof.
  unfold sand. rewrite buildMaskY_length. reflexivity.
Qed.

Lemma zero_loop m :
  length m = 8%nat → for_loop 0 8 (λ r m, aset m r 0) m = replicate 8 0.
Proof.
  intros H. destruct (length8_inv _ H) as (?&?&?&?&?&?&?&?&->). reflexivity.
Qed.

Lemma buildMaskY_set_maskY st m :
  length (maskY st) = 8%nat → length m = 8%nat →
  buildMaskY (set_maskY m st) = buildMaskY st.
Proof.
  intros H Hm. unfold buildMaskY. cbv zeta. fields.
  rewrite !zero_loop by done. destruct st; reflexivity.
Qed.

Lemma buildMaskY_idem st :
  length (maskY st) = 8%nat → buildMaskY (buildMaskY st) = buildMaskY st.
Proof.
  intros H.
  transitivity (buildMaskY (set_maskY (maskY (buildMaskY st)) st));
    [reflexivity|].
  apply buildMaskY_set_maskY; [done|]. by rewrite buildMaskY_length.
Qed.

Lemma Inv_buildMaskY st : InvCore st → Inv (buildMaskY st).
Proof.
  intros H. split.
  - eapply InvCore_sand; [|exact H]. symmetry. apply sand_buildMaskY.
  - rewrite buildMaskY_idem; [done|]. apply H.
Qed.

Lemma buildMaskY_fix st : Inv st → buildMaskY st = st.
Proof.
  intros [_ H]. revert H. unfold buildMaskY. cbv zeta.
  match goal with |- context [set_maskY ?m st] => generalize m end.
  intros m. fields. destruct st. fields. intros ->. reflexivity.
Qed.

#[local] Opaque orderTable.

Lemma drained_S k :
  drained (S k) = drainCell orderTable.1 orderTable.2 (Z.of_nat k) (drained k).
Proof. reflexivity. Qed.

Lemma InvCore_spawn st :
  InvCore st → grainActive st = false → grainIndex st < 64 →
  InvCore (spawnGrain st).
Proof.
  intros [HyL Hsh Hrow Hcol HoR HoC Hidx Hact Hfin HmX Hcnt Hds Hfree] Ha Hi.
  rewrite Ha in HmX. unfold b2z in *.
  constructor; unfold spawnGrain; cbv zeta; fields; try assumption.
  - unfold NECK_ROW. lia.
  - unfold NECK_COL. lia.
  - intros _. exact Hi.
  - unfold b2z.
    replace (Z.to_nat (grainIndex st + 1)) with (S (Z.to_nat (grainIndex st)))
      by lia.
    rewrite drained_S, Z2Nat.id by lia.
    rewrite HmX, HoR, HoC.
    replace (grainIndex st + 0) with (grainIndex st) by lia. reflexivity.
  - intros _.
    destruct (yget (yStatic st) NECK_ROW NECK_COL) eqn:E; [|reflexivity].
    apply downset_full in E; [|assumption]. lia.
Qed.

Lemma InvCore_move st :
  InvCore st → grainActive st = true → (moveGrain st).2 = true →
  InvCore (moveGrain st).1.
Proof.
  intros [HyL Hsh Hrow Hcol HoR HoC Hidx Hact Hfin HmX Hcnt Hds Hfree] Ha Hm.
  destruct (moveGrain_spec st) as (r & c & t & moved & E & Hcase & Hnew).
  rewrite E in *. simpl in Hm. subst moved. simpl.
  specialize (Hnew eq_refl).
  constructor; fields; try assumption.
  - destruct Hcase as [?|[?|[?|?]]]; lia.
  - destruct Hcase as [?|[?|[?|?]]]; lia.
  - intros _. exact Hnew.
Qed.

Lemma moveGrain_blocked st :
  (moveGrain st).2 = false →
  (moveGrain st).1 = st ∧
  (grRow st > 0 → yget (yStatic st) (grRow st - 1) (grCol st) = true) ∧
  (grCol st > 0 → yget (yStatic st) (grRow st) (grCol st - 1) = true).
Proof.
  intros Hm.
  destruct (moveGrain_spec st) as (r & c & t & moved & E & Hcase & _).
  rewrite E in *. simpl in Hm. subst moved. simpl.
  destruct Hcase as [H|[H|[H|(_ & -> & -> & -> & H1 & H2)]]];
    [destruct H as [H _]; discriminate..|].
  split; [by destruct st|done].
Qed.

Lemma inGrid_true r c : 0 ≤ r ≤ 7 → 0 ≤ c ≤ 7 → inGrid r c = true.
Proof. unfold inGrid. intros. repeat (apply andb_true_intro; split); lia. Qed.

Lemma InvCore_settle st :
  InvCore st → finished st = false → grainActive st = true →
  (moveGrain st).2 = false →
  InvCore (settleGrain st).
Proof.
  intros [HyL Hsh Hrow Hcol HoR HoC Hidx Hact Hfin HmX Hcnt Hds Hfree]
    Hf Ha Hm.
  destruct (moveGrain_blocked st Hm) as (_ & Hdown & Hleft).
  specialize (Hact Ha). specialize (Hfree Ha).
  assert (Hu : u8 (grainIndex st + 1) = grainIndex st + 1).
  { unfold u8. apply Z.mod_small. lia. }
  unfold settleGrain. cbv zeta. rewrite inGrid_true by assumption. fields.
  rewrite Hu.
  destruct (Z.geb_spec (grainIndex st + 1) 64) as [Hge|Hlt];
    (constructor; fields; try assumption; try (intros [=]);
     [ by apply yshape_yset
     | lia
     | rewrite ?Hf; destruct (Z.geb_spec (grainIndex st + 1) 64);
         (reflexivity || lia)
     | rewrite HmX, Ha; unfold b2z; f_equal; lia
     | rewrite countY_yset by assumption; lia
     | by apply downset_yset ]).
Qed.

Lemma Inv_step st : Inv st → Inv (step st).
Proof.
  intros HI. pose proof HI as [Hc _].
  destruct (finished st) eqn:Hf.
  { rewrite step_finished, buildMaskY_fix by assumption. exact HI. }
  destruct (grainActive st) eqn:Ha.
  - destruct (moveGrain st).2 eqn:Hm.
    + rewrite step_moved by assumption. apply Inv_buildMaskY.
      eapply InvCore_sand; [symmetry; apply sand_moveHole|].
      by apply InvCore_move.
    + rewrite step_settle by assumption. apply Inv_buildMaskY.
      eapply InvCore_sand; [symmetry; apply sand_moveHole|].
      destruct (moveGrain_blocked st Hm) as (-> & _).
      by apply InvCore_settle.
  - assert (grainIndex st < 64).
    { destruct Hc as [_ _ _ _ _ _ _ _ Hfin _ _ _ _]. rewrite Hfin in Hf.
      destruct (Z.geb_spec (grainIndex st) 64); [discriminate|lia]. }
    rewrite step_spawn by assumption. apply Inv_buildMaskY.
    eapply InvCore_sand; [symmetry; apply sand_moveHole|].
    by apply InvCore_spawn.
Qed.

Lemma drained_length k : length (drained k) = 8%nat.
Proof.
  induction k as [|k IH]; [reflexivity|].
  rewrite drained_S. unfold drainCell. cbv zeta. by rewrite length_aset.
Qed.

(** A freshly started cycle satisfies the invariant. *)
Lemma Inv_start d a b t i now r c oR oC hr hc :
  0 ≤ r ≤ 7 → 0 ≤ c ≤ 7 → oR = orderTable.1 → oC = orderTable.2 →
  Inv (mkState d a b t i now false
         (replicate 8 255) (replicate 8 0) (replicate 8 (replicate 8 false))
         false r c false oR oC 0 false hr hc).
Proof.
  intros Hr Hc HoR HoC. split.
  - constructor; fields; try assumption; try (intros [=]).
    + reflexivity.
    + apply yshape_empty.
    + lia.
    + reflexivity.
    + reflexivity.
    + reflexivity.
    + apply downset_empty.
  - reflexivity.
Qed.

Lemma Inv_startNewCycle d pot now st : Inv st → Inv (startNewCycle d pot now st).
Proof.
  intros [H _].
  destruct H as [HyL Hsh Hrow Hcol HoR HoC Hidx Hact Hfin HmX Hcnt Hds Hfree].
  rewrite startNewCycle_eq; try assumption.
  - by apply Inv_start.
  - rewrite HmX. apply drained_length.
Qed.

Lemma Inv_setup x y pot now : Inv (setup x y pot now).
Proof.
  rewrite setup_eq. apply Inv_start; unfold NECK_ROW, NECK_COL; (lia || reflexivity).
Qed.

(** The invariant does not read the sensor memory or the timestamps. *)
Lemma Inv_set_lastFlipMs v st : Inv st → Inv (set_lastFlipMs v st).
Proof.
  intros [H1 H2]. split; [|exact H2].
  eapply InvCore_sand; [|exact H1]. reflexivity.
Qed.

Lemma Inv_set_lastGravity v st : Inv st → Inv (set_lastGravity v st).
Proof.
  intros [H1 H2]. split; [|exact H2].
  eapply InvCore_sand; [|exact H1]. reflexivity.
Qed.

Lemma Inv_set_lastStepMs v st : Inv st → Inv (set_lastStepMs v st).
Proof.
  intros [H1 H2]. split; [|exact H2].
  eapply InvCore_sand; [|exact H1]. reflexivity.
Qed.

Lemma Inv_checkFlip x y now pot nowC st :
  Inv st → Inv (checkFlip x y now pot nowC st).
Proof.
  intros H. unfold checkFlip. cbv zeta. apply Inv_set_lastGravity.
  destruct (flipRecognized _ _ _); [|exact H].
  by apply Inv_startNewCycle, Inv_set_lastFlipMs.
Qed.

Lemma Inv_loop inp st : Inv st → Inv (loop inp st).
Proof.
  intros H. unfold loop. cbv zeta.
  pose proof (Inv_checkFlip (angleX inp) (angleY inp) (millisFlip inp)
                (potTime inp) (millisCycle inp) st H) as H'.
  destruct (_ >=? _); [|exact H'].
  by apply Inv_step, Inv_set_lastStepMs.
Qed.

Lemma reachable_Inv st : reachable st → Inv st.
Proof.
  induction 1 as [x y pot now|inp st _ IH].
  - apply Inv_setup.
  - by apply Inv_loop.
Qed.

Lemma Inv_ticks n st : Inv st → Inv (ticks n st).
Proof.
  intros H. induction n as [|n IH]; [exact H|]. simpl. by apply Inv_step.
Qed.

(** ** Mass conservation *)

(** Each entry of the order table removes one lit cell of the source. *)
Lemma countX_drained k : (k ≤ 64)%nat → (countX (drained k) + k = 64)%nat.
Proof.
  intros Hk.
  assert (H : forallb (λ k, countX (drained k) + k =? 64)%nat (seq 0 65) = true)
    by (vm_compute; reflexivity).
  rewrite forallb_forall in H.
  apply Nat.eqb_eq, H, in_seq. lia.
Qed.

Lemma Inv_mass st : Inv st → mass st = 64%nat.
Proof.
  intros [H _].
  destruct H as [HyL Hsh Hrow Hcol HoR HoC Hidx Hact Hfin HmX Hcnt Hds Hfree].
  unfold mass. rewrite HmX.
  assert (Hk : (Z.to_nat (grainIndex st + b2z (grainActive st)) ≤ 64)%nat).
  { destruct (grainActive st); unfold b2z; [specialize (Hact eq_refl)|]; lia. }
  pose proof (countX_drained _ Hk) as HX.
  destruct (grainActive st); unfold b2z in *; lia.
Qed.

Lemma sand_step_spawn st :
  finished st = false → grainActive st = false → grainIndex st < 64 →
  sand (step st) = sand (spawnGrain st).
Proof.
  intros. rewrite step_spawn by assumption.
  by rewrite sand_buildMaskY, sand_moveHole.
Qed.

Lemma sand_step_moved st :
  finished st = false → grainActive st = true → (moveGrain st).2 = true →
  sand (step st) = sand (moveGrain st).1.
Proof.
  intros. rewrite step_moved by assumption.
  by rewrite sand_buildMaskY, sand_moveHole.
Qed.

Lemma sand_step_settle st :
  finished st = false → grainActive st = true → (moveGrain st).2 = false →
  sand (step st) = sand (settleGrain st).
Proof.
  intros Hf Ha Hm. rewrite step_settle by assumption.
  rewrite sand_buildMaskY, sand_moveHole.
  by destruct (moveGrain_blocked st Hm) as (-> & _).
Qed.

Lemma Inv_tick_kind st :
  Inv st → finished st = false → tick_kind st (step st).
Proof.
  intros HI Hf. pose proof (Inv_step st HI) as HI'.
  pose proof (Inv_mass _ HI) as Hm. pose proof (Inv_mass _ HI') as Hm'.
  destruct HI as [H _].
  destruct H as [HyL Hsh Hrow Hcol HoR HoC Hidx Hact Hfin HmX Hcnt Hds Hfree].
  unfold mass in Hm, Hm'.
  destruct (grainActive st) eqn:Ha.
  - destruct (moveGrain st).2 eqn:Hmv.
    + pose proof (sand_step_moved st Hf Ha Hmv) as E.
      destruct (moveGrain_spec st) as (r & c & t & moved & Em & Hcase & Hto).
      rewrite Em in E, Hmv. cbn [snd] in Hmv. subst moved.
      specialize (Hto eq_refl).
      unfold sand in E. fields.
      injection E as E1 E2 E3 E4 E5 E6 E7 E8 E9 E10.
      rewrite Ha in E5. rewrite <- E6, <- E7 in Hto.
      assert (Hmove :
        ((r = grRow st - 1 ∧ c = grCol st - 1)
         ∨ (r = grRow st ∧ c = grCol st - 1)
         ∨ (r = grRow st - 1 ∧ c = grCol st)) ∧ 0 ≤ r ∧ 0 ≤ c).
      { destruct Hcase as [H|[H|[H|[H _]]]]; [| | |discriminate H];
          split; [left|lia|right; left|lia|right; right|lia]; lia. }
      destruct Hmove as (Hmove & Hr0 & Hc0).
      rewrite <- E6, <- E7 in Hmove. rewrite <- E6 in Hr0. rewrite <- E7 in Hc0.
      apply tick_move; assumption.
    + pose proof (sand_step_settle st Hf Ha Hmv) as E.
      unfold settleGrain in E. cbv zeta in E.
      rewrite inGrid_true in E by assumption.
      assert (E' : maskX (step st) = maskX st ∧ grainActive (step st) = false ∧
                   yStatic (step st) = yset (yStatic st) (grRow st) (grCol st) true).
      { destruct (_ >=? _) in E; unfold sand in E; fields;
          injection E as E1 E2 E3 E4 E5 E6 E7 E8 E9 E10;
          (split; [|split]; assumption). }
      destruct E' as (E1 & E2 & E3).
      destruct (moveGrain_blocked st Hmv) as (_ & Hdown & Hleft).
      apply tick_settle; try assumption.
      * apply Hfree; reflexivity.
      * rewrite E3. apply countY_yset; try assumption.
        apply Hfree; reflexivity.
      * intros Hr0 Hc0.
        apply (Hds (grRow st - 1) (grCol st)); [lia|lia|apply Hdown; lia|lia].
      * intros Hc0. apply Hleft. lia.
      * intros Hr0. apply Hdown. lia.
  - assert (Hi : grainIndex st < 64).
    { rewrite Hfin in Hf.
      destruct (Z.geb_spec (grainIndex st) 64); [discriminate|lia]. }
    pose proof (sand_step_spawn st Hf Ha Hi) as E.
    unfold sand, spawnGrain in E. cbv zeta in E. fields.
    injection E as E1 E2 E3 E4 E5 E6 E7 E8 E9 E10.
    apply tick_spawn; try assumption.
    rewrite E4, E5 in Hm'. lia.
Qed.

(** A tick of one of the three kinds always changes the state: it
    switches the grain on or off, or takes it to another cell. *)
Lemma tick_kind_changes st st' : tick_kind st st' → st' ≠ st.
Proof.
  intros [Ha Ha' _ _ _ _ _|Ha Ha' _ _ Hmove _ _ _|Ha Ha' _ _ _ _ _ _ _] E;
    rewrite E in *.
  - rewrite Ha in Ha'. discriminate Ha'.
  - lia.
  - rewrite Ha in Ha'. discriminate Ha'.
Qed.

(** C1: in every state of every run the lit cells of the source field, the
    true cells of [yStatic] and the grain in flight add up to 64, and so
    they do after any tick from there.  A tick of a cycle that has not
    finished either clears one source cell while activating the grain at
    the neck, or moves the grain to a free neighbour cell and leaves both
    fields alone, or, the grain being blocked, deactivates it while
    setting one cell of [yStatic] that was false.  A tick of a finished
    cycle is none of the three: it leaves the whole state as it is. *)
Theorem mass_conservation st :
  reachable st →
  mass st = 64%nat ∧ mass (step st) = 64%nat ∧
  (finished st = false → tick_kind st (step st)) ∧
  (finished st = true → step st = st).
Proof.
  intros H%reachable_Inv.
  split; [by apply Inv_mass|]. split; [by apply Inv_mass, Inv_step|].
  split; [by apply Inv_tick_kind|].
  intros Hf. rewrite step_finished by assumption. by apply buildMaskY_fix.
Qed.

Lemma mass_conservation_witness :
  reachable (setup 0 (-30) 150 0) ∧
  mass (step (setup 0 (-30) 150 0)) = 64%nat ∧
  tick_kind (setup 0 (-30) 150 0) (step (setup 0 (-30) 150 0)).
Proof.
  pose proof (reach_setup 0 (-30) 150 0) as Hr.
  assert (Hf : finished (setup 0 (-30) 150 0) = false)
    by (vm_compute; reflexivity).
  pose proof (mass_conservation _ Hr) as (_ & H & Hk & _).
  split; [exact Hr|]. split; [exact H|exact (Hk Hf)].
Defined.

Lemma reachable_runLoop inps st : reachable st → reachable (runLoop inps st).
Proof.
  unfold runLoop. revert st.
  induction inps as [|inp inps IH]; intros st H; [exact H|].
  simpl. apply IH. apply reach_loop. exact H.
Qed.

(** C1 as stated fails: its three kinds do not cover every step, because
    [stepAnimation] returns right after rendering once the cycle has
    finished.  After 436 polls of the steady run all 64 grains have
    settled and the cycle is finished; the next tick leaves the whole
    state as it is (no source cell cleared, no grain moved, none
    settled), so it is none of the three kinds. *)
Lemma finished_tick_is_idle :
  reachable (steadyRun 436) ∧ finished (steadyRun 436) = true ∧
  grainIndex (steadyRun 436) = 64 ∧ grainActive (steadyRun 436) = false ∧
  step (steadyRun 436) = steadyRun 436 ∧
  ¬ tick_kind (steadyRun 436) (step (steadyRun 436)).
Proof.
  set (st := steadyRun 436).
  assert (Hr : reachable st) by (apply reachable_runLoop, reach_setup).
  assert (Hf : finished st = true) by (vm_compute; reflexivity).
  assert (E : step st = st).
  { rewrite step_finished by exact Hf. apply buildMaskY_fix, reachable_Inv, Hr. }
  split; [exact Hr|]. split; [exact Hf|].
  do 2 (split; [vm_compute; reflexivity|]).
  split; [exact E|].
  intros H. exact (tick_kind_changes _ _ H E).
Qed.

(** ** The grain stays on the grid and on free cells *)

Lemma Inv_free st :
  Inv st → grainActive st = true →
  yget (yStatic st) (grRow st) (grCol st) = false.
Proof. intros [H _]. apply H. Qed.

Lemma Inv_bounds st :
  Inv st →
  0 ≤ grRow st ≤ 7 ∧ 0 ≤ grCol st ≤ 7 ∧ inGrid (grRow st) (grCol st) = true.
Proof.
  intros [H _].
  destruct H as [HyL Hsh Hrow Hcol HoR HoC Hidx Hact Hfin HmX Hcnt Hds Hfree].
  split; [assumption|]. split; [assumption|]. by apply inGrid_true.
Qed.

(** C3: an active grain never sits on a cell that is true in [yStatic]:
    not in any state of a run, not right after the tick that spawns it at
    the neck cell, and not after any other tick; a move only ever goes to
    a cell that is false in [yStatic]. *)
Theorem grain_never_overlaps st :
  reachable st →
  (grainActive st = true →
     yget (yStatic st) (grRow st) (grCol st) = false) ∧
  (finished st = false → grainActive st = false →
     grainActive (step st) = true ∧
     grRow (step st) = NECK_ROW ∧ grCol (step st) = NECK_COL ∧
     yget (yStatic (step st)) NECK_ROW NECK_COL = false) ∧
  (grainActive (step st) = true →
     yget (yStatic (step st)) (grRow (step st)) (grCol (step st)) = false) ∧
  ((moveGrain st).2 = true →
     yget (yStatic st) (grRow (moveGrain st).1) (grCol (moveGrain st).1)
       = false).
Proof.
  intros HI%reachable_Inv.
  split; [by apply Inv_free|].
  split.
  { intros Hf Ha.
    assert (Hi : grainIndex st < 64).
    { destruct HI as [H _].
      destruct H as [_ _ _ _ _ _ Hidx _ Hfin _ _ _ _].
      rewrite Hfin in Hf.
      destruct (Z.geb_spec (grainIndex st) 64); [discriminate|lia]. }
    pose proof (sand_step_spawn st Hf Ha Hi) as E.
    unfold sand, spawnGrain in E. cbv zeta in E. fields.
    injection E as E1 E2 E3 E4 E5 E6 E7 E8 E9 E10.
    split; [assumption|]. split; [assumption|]. split; [assumption|].
    pose proof (Inv_free _ (Inv_step _ HI) E5) as F.
    by rewrite E6, E7 in F. }
  split; [by apply Inv_free, Inv_step|].
  intros Hm.
  destruct (moveGrain_spec st) as (r & c & t & moved & E & _ & Hnew).
  rewrite E in *. simpl in Hm. subst moved. fields. by apply Hnew.
Qed.

Lemma grain_never_overlaps_witness :
  reachable (setup 0 (-30) 150 0) ∧
  (grainActive (step (setup 0 (-30) 150 0)) = true →
   yget (yStatic (step (setup 0 (-30) 150 0)))
     (grRow (step (setup 0 (-30) 150 0)))
     (grCol (step (setup 0 (-30) 150 0))) = false).
Proof.
  pose proof (reach_setup 0 (-30) 150 0) as Hr.
  pose proof (grain_never_overlaps _ Hr) as (_ & _ & H & _).
  split; [exact Hr|exact H].
Defined.

(** C10: the row and the column of the grain are within [0,7] in every
    state of a run and after every tick, so the bounds test [inGrid] that
    guards the write of the grain into [maskY] and the one that guards its
    settling into [yStatic] always succeed. *)
Theorem grain_in_bounds st :
  reachable st →
  (0 ≤ grRow st ≤ 7 ∧ 0 ≤ grCol st ≤ 7 ∧
   inGrid (grRow st) (grCol st) = true) ∧
  (0 ≤ grRow (step st) ≤ 7 ∧ 0 ≤ grCol (step st) ≤ 7 ∧
   inGrid (grRow (step st)) (grCol (step st)) = true).
Proof.
  intros HI%reachable_Inv. split; [by apply Inv_bounds|].
  by apply Inv_bounds, Inv_step.
Qed.

Lemma grain_in_bounds_witness :
  reachable (setup 0 (-30) 150 0) ∧
  inGrid (grRow (step (setup 0 (-30) 150 0)))
    (grCol (step (setup 0 (-30) 150 0))) = true.
Proof.
  pose proof (reach_setup 0 (-30) 150 0) as Hr.
  pose proof (grain_in_bounds _ Hr) as (_ & _ & _ & H).
  split; [exact Hr|exact H].
Defined.

(** ** The finished cycle *)

Lemma drained_64 : drained 64 = replicate 8 0.
Proof. vm_compute. reflexivity. Qed.

Lemma Inv_finished st :
  Inv st → grainIndex st = 64 →
  finished st = true ∧ grainActive st = false ∧ maskX st = replicate 8 0.
Proof.
  intros [H _] Hi.
  destruct H as [HyL Hsh Hrow Hcol HoR HoC Hidx Hact Hfin HmX Hcnt Hds Hfree].
  assert (Ha : grainActive st = false).
  { destruct (grainActive st); [|reflexivity]. specialize (Hact eq_refl). lia. }
  split; [by rewrite Hfin, Hi|]. split; [assumption|].
  rewrite HmX, Ha, Hi. apply drained_64.
Qed.

Lemma step_fix st : Inv st → finished st = true → step st = st.
Proof. intros HI Hf. rewrite step_finished by assumption. by apply buildMaskY_fix. Qed.

Lemma ticks_fix n st : Inv st → finished st = true → ticks n st = st.
Proof.
  intros HI Hf. induction n as [|n IH]; [reflexivity|].
  simpl. fold (ticks n st). rewrite IH. by apply step_fix.
Qed.

(** C5: once the drain index is 64 the cycle is finished and the source
    field is all dark; from then on a tick changes nothing at all, and a
    pass of [loop] that recognises no flip leaves source field, target
    field and settled sand as they are. *)
Theorem cycle_finishes st :
  reachable st → grainIndex st = 64 →
  finished st = true ∧ grainActive st = false ∧
  maskX st = replicate 8 0 ∧ countX (maskX st) = 0%nat ∧
  (∀ n, ticks n st = st) ∧
  (∀ inp,
     flipRecognized (getGravity (angleX inp) (angleY inp) st)
       (millisFlip inp) st = false →
     finished (loop inp st) = true ∧ maskX (loop inp st) = maskX st ∧
     maskY (loop inp st) = maskY st ∧ yStatic (loop inp st) = yStatic st).
Proof.
  intros HI%reachable_Inv Hi.
  destruct (Inv_finished st HI Hi) as (Hf & Ha & Hx).
  split; [assumption|]. split; [assumption|]. split; [assumption|].
  split; [by rewrite Hx|].
  split; [intros n; by apply ticks_fix|].
  intros inp Hflip. unfold loop, checkFlip. cbv zeta. rewrite Hflip.
  match goal with |- context [if ?b then _ else _] => destruct b end.
  - rewrite step_fix.
    + by repeat split.
    + by apply Inv_set_lastStepMs, Inv_set_lastGravity.
    + assumption.
  - by repeat split.
Qed.

Lemma cycle_finishes_witness :
  reachable (steadyRun 436) ∧ grainIndex (steadyRun 436) = 64 ∧
  finished (steadyRun 436) = true.
Proof.
  set (st := steadyRun 436).
  assert (Hr : reachable st) by (apply reachable_runLoop, reach_setup).
  assert (Hi : grainIndex st = 64) by (vm_compute; reflexivity).
  pose proof (cycle_finishes st Hr Hi) as (H & _).
  split; [exact Hr|]. split; [exact Hi|exact H].
Defined.

(** ** Descent of a grain *)

Lemma ticks_S n st : ticks (S n) st = step (ticks n st).
Proof. reflexivity. Qed.

Lemma ticks_step n st : ticks n (step st) = ticks (S n) st.
Proof.
  induction n as [|n IH]; [reflexivity|].
  rewrite ticks_S, IH. reflexivity.
Qed.

(** One tick of an active grain: it moves and [row + col] drops, or it
    settles and the drain index advances. *)
Lemma step_active st :
  finished st = false → grainActive st = true →
  0 ≤ grRow st → 0 ≤ grCol st →
  (grainActive (step st) = true ∧ finished (step st) = false ∧
   grainIndex (step st) = grainIndex st ∧
   0 ≤ grRow (step st) ∧ 0 ≤ grCol (step st) ∧
   grRow (step st) + grCol (step st) < grRow st + grCol st)
  ∨ (grainActive (step st) = false ∧
     grainIndex (step st) = u8 (grainIndex st + 1)).
Proof.
  intros Hf Ha Hr Hc.
  destruct (moveGrain st).2 eqn:Hm.
  - left. pose proof (sand_step_moved st Hf Ha Hm) as E.
    destruct (moveGrain_spec st) as (r & c & t & moved & Em & Hcase & _).
    rewrite Em in E, Hm. simpl in Hm. subst moved.
    unfold sand in E. fields.
    injection E as E1 E2 E3 E4 E5 E6 E7 E8 E9 E10.
    rewrite E1, E5, E6, E7, E10.
    repeat split; try assumption;
      destruct Hcase as [?|[?|[?|?]]]; lia.
  - right. pose proof (sand_step_settle st Hf Ha Hm) as E.
    unfold settleGrain in E. cbv zeta in E.
    destruct (inGrid _ _) in E; fields;
      destruct (_ >=? _) in E; unfold sand in E; fields;
      injection E as E1 E2 E3 E4 E5 E6 E7 E8 E9 E10;
      split; assumption.
Qed.

Lemma grain_descends n : ∀ st,
  finished st = false → grainActive st = true →
  0 ≤ grRow st → 0 ≤ grCol st → grRow st + grCol st ≤ Z.of_nat n →
  ∃ k : nat, (k ≤ n)%nat ∧
    (∀ i, (i ≤ k)%nat → grainActive (ticks i st) = true) ∧
    (∀ i, (i < k)%nat →
       grRow (ticks (S i) st) + grCol (ticks (S i) st)
       < grRow (ticks i st) + grCol (ticks i st)) ∧
    grainActive (ticks (S k) st) = false ∧
    grainIndex (ticks (S k) st) = u8 (grainIndex st + 1).
Proof.
  induction n as [|n IH]; intros st Hf Ha Hr Hc Hsum.
  - destruct (step_active st Hf Ha Hr Hc) as [H|[H1 H2]]; [lia|].
    exists 0%nat. split; [lia|]. split.
    { intros i Hi. replace i with 0%nat by lia. exact Ha. }
    split; [intros i Hi; lia|]. split; assumption.
  - destruct (step_active st Hf Ha Hr Hc) as [(Ha'&Hf'&Hi'&Hr'&Hc'&Hlt)|[H1 H2]].
    + destruct (IH (step st) Hf' Ha' Hr' Hc') as (k & Hk & Hact & Hdec & Hend & Hidx);
        [lia|].
      exists (S k). split; [lia|]. split.
      { intros [|i] Hi; [exact Ha|]. rewrite <- (ticks_step i st). apply Hact. lia. }
      split.
      { intros [|i] Hi; [exact Hlt|].
        rewrite <- (ticks_step (S i) st), <- (ticks_step i st).
        apply Hdec. lia. }
      rewrite <- (ticks_step (S k) st).
      split; [exact Hend|]. by rewrite Hidx, Hi'.
    + exists 0%nat. split; [lia|]. split.
      { intros i Hi. replace i with 0%nat by lia. exact Ha. }
      split; [intros i Hi; lia|]. split; assumption.
Qed.



(** ** The refill hole *)

Lemma hole_moveHole st : hole (moveHole st) = advanceHole (hole st).
Proof.
  destruct st as [? ? ? ? ? ? ? ? ? ? ? ? ? ? ? ? ? ha hr hc].
  unfold moveHole, advanceHole, hole. fields.
  destruct ha; [|reflexivity].
  destruct (_ && _); reflexivity.
Qed.

Lemma hole_buildMaskY st : hole (buildMaskY st) = hole st.
Proof. reflexivity. Qed.

Lemma moveHole_hole st st' : hole st = hole st' → hole (moveHole st) = hole (moveHole st').
Proof. intros H. by rewrite !hole_moveHole, H. Qed.

Lemma hole_settleGrain st : hole (settleGrain st) = hole st.
Proof.
  unfold settleGrain. cbv zeta.
  destruct (inGrid _ _); fields; destruct (_ >=? _); reflexivity.
Qed.

Lemma hole_moveGrain st : hole (moveGrain st).1 = hole st.
Proof.
  destruct (moveGrain_spec st) as (r & c & t & moved & E & _).
  rewrite E. reflexivity.
Qed.

(** The hole after one tick of a running cycle: back at the neck and one
    step on if the tick spawns a grain, one step on otherwise, whatever
    the grain does. *)
Lemma hole_step st :
  finished st = false →
  hole (step st) =
    if spawnDue st then (true, NECK_ROW - 1, NECK_COL - 1)
    else advanceHole (hole st).
Proof.
  intros Hf. unfold spawnDue. rewrite Hf. cbn [negb andb].
  destruct (grainActive st) eqn:Ha; cbn [negb andb].
  - destruct (moveGrain st).2 eqn:Hm.
    + rewrite step_moved by assumption.
      rewrite hole_buildMaskY, hole_moveHole, hole_moveGrain. reflexivity.
    + rewrite step_settle by assumption.
      rewrite hole_buildMaskY, hole_moveHole, hole_settleGrain, hole_moveGrain.
      reflexivity.
  - destruct (Z.ltb_spec (grainIndex st) 64) as [Hi|Hi].
    + rewrite step_spawn by assumption. reflexivity.
    + rewrite step_idle by assumption.
      rewrite hole_buildMaskY, hole_moveHole. reflexivity.
Qed.

Lemma ticks_add a b st : ticks (a + b) st = ticks a (ticks b st).
Proof. apply Nat.iter_add. Qed.

(** A finished cycle does not touch the hole any more. *)
Lemma hole_step_finished st : finished st = true → hole (step st) = hole st.
Proof. intros Hf. rewrite step_finished by assumption. reflexivity. Qed.

(** C4, as far as it holds: the tick that spawns a grain leaves the hole
    at (6,6); every later tick of the running cycle that spawns no new
    grain moves an active hole one step down the diagonal, or switches it
    off at the boundary, whatever the grain does.  So if the seven ticks
    after the spawn tick are of that kind, the hole is at (7-k,7-k) after
    the k-th tick counted from the spawn tick, for k = 1..7, and off after
    the eighth. *)
Theorem hole_advances st :
  spawnDue st = true →
  hole (ticks 1 st) = (true, 6, 6) ∧
  (∀ s, quietTick s = true → hole (step s) = advanceHole (hole s)) ∧
  (∀ k : nat, (1 ≤ k ≤ 7)%nat →
     (∀ i : nat, (1 ≤ i < k)%nat → quietTick (ticks i st) = true) →
     hole (ticks k st) = (true, 7 - Z.of_nat k, 7 - Z.of_nat k)) ∧
  ((∀ i : nat, (1 ≤ i < 8)%nat → quietTick (ticks i st) = true) →
   hole_traverses st).
Proof.
  intros Hs.
  assert (Hf : finished st = false).
  { unfold spawnDue in Hs. by destruct (finished st). }
  assert (H1 : hole (ticks 1 st) = (true, 6, 6)).
  { change (ticks 1 st) with (step st). rewrite hole_step, Hs by assumption.
    reflexivity. }
  assert (Hq : ∀ s, quietTick s = true → hole (step s) = advanceHole (hole s)).
  { intros s Hqs. unfold quietTick in Hqs.
    apply andb_true_iff in Hqs as [Hfs Hns].
    rewrite hole_step by (by destruct (finished s)).
    by destruct (spawnDue s). }
  assert (Hk : ∀ k : nat, (1 ≤ k ≤ 7)%nat →
     (∀ i : nat, (1 ≤ i < k)%nat → quietTick (ticks i st) = true) →
     hole (ticks k st) = (true, 7 - Z.of_nat k, 7 - Z.of_nat k)).
  { induction k as [|k IH]; intros Hk Hquiet; [lia|].
    destruct (decide (k = 0%nat)) as [->|Hk0]; [exact H1|].
    rewrite ticks_S, Hq by (apply Hquiet; lia).
    rewrite IH by (try lia; intros i Hi; apply Hquiet; lia).
    unfold advanceHole.
    destruct (Z.gtb_spec (7 - Z.of_nat k) 0); [|lia]. cbn [andb].
    f_equal; [f_equal|]; lia. }
  split; [exact H1|]. split; [exact Hq|]. split; [exact Hk|].
  intros Hquiet. split.
  - intros k Hk7. apply Hk; [exact Hk7|]. intros i Hi. apply Hquiet. lia.
  - change (ticks 8 st) with (step (ticks 7 st)).
    assert (H8 : hole (step (ticks 7 st)) = (false, 0, 0)).
    { rewrite Hq by (apply Hquiet; lia).
      rewrite (Hk 7%nat) by (try lia; intros i Hi; apply Hquiet; lia).
      reflexivity. }
    unfold hole in H8. by injection H8.
Qed.

Lemma hole_advances_witness :
  spawnDue (setup 0 (-30) 150 0) = true ∧
  hole (ticks 1 (setup 0 (-30) 150 0)) = (true, 6, 6) ∧
  hole_traverses (setup 0 (-30) 150 0).
Proof.
  assert (H : spawnDue (setup 0 (-30) 150 0) = true)
    by (rewrite setup_eq; reflexivity).
  pose proof (hole_advances _ H) as (H1 & _ & _ & H4).
  split; [exact H|]. split; [exact H1|].
  apply H4. intros i Hi.
  assert (Hi' : i ∈ seq 1 7) by (apply elem_of_seq; lia).
  clear Hi. revert i Hi'. apply Forall_forall.
  apply (bool_decide_unpack _). vm_compute. exact I.
Defined.

(** C4 as stated fails.  After 124 polls of the steady run 15 grains have
    settled (rows 0..2 hold columns 0..3, row 3 holds columns 0..2).  The
    16th grain falls (7,7), (6,6), (5,5), (4,4), (3,3) and settles there
    in the sixth tick; the seventh tick spawns the next grain and puts the
    hole, then at (1,1), back at the neck.  Seven ticks after the spawn
    the hole is at (6,6), not at the boundary, and it has not been
    switched off in between. *)
Lemma hole_interrupted :
  reachable (steadyRun 124) ∧ spawnDue (steadyRun 124) = true ∧
  grainIndex (steadyRun 124) = 15 ∧
  (grainActive (ticks 5 (steadyRun 124)),
   grRow (ticks 5 (steadyRun 124)), grCol (ticks 5 (steadyRun 124)))
    = (true, 3, 3) ∧
  grainActive (ticks 6 (steadyRun 124)) = false ∧
  spawnDue (ticks 6 (steadyRun 124)) = true ∧
  hole (ticks 6 (steadyRun 124)) = (true, 1, 1) ∧
  hole (ticks 7 (steadyRun 124)) = (true, 6, 6) ∧
  ¬ hole_traverses (steadyRun 124).
Proof.
  set (st := steadyRun 124).
  assert (H7 : hole (ticks 7 st) = (true, 6, 6)) by (vm_compute; reflexivity).
  split; [apply reachable_runLoop, reach_setup|].
  do 6 (split; [vm_compute; reflexivity|]).
  split; [exact H7|].
  intros [Hk _]. specialize (Hk 7%nat ltac:(lia)).
  rewrite H7 in Hk. discriminate Hk.
Qed.

(** The hole of the last grain is never switched off: the cycle finishes
    one tick after the spawn and the hole stays active at (5,5). *)
Lemma hole_frozen_at_finish :
  reachable (steadyRun 434) ∧ spawnDue (steadyRun 434) = true ∧
  ∀ n : nat, (2 ≤ n)%nat → hole (ticks n (steadyRun 434)) = (true, 5, 5).
Proof.
  set (st := steadyRun 434).
  assert (Hr : reachable st) by apply reachable_runLoop, reach_setup.
  split; [exact Hr|]. split; [vm_compute; reflexivity|].
  assert (HI : Inv (ticks 2 st)) by apply Inv_ticks, reachable_Inv, Hr.
  assert (Hf : finished (ticks 2 st) = true) by (vm_compute; reflexivity).
  assert (H2 : hole (ticks 2 st) = (true, 5, 5)) by (vm_compute; reflexivity).
  intros n Hn. replace n with ((n - 2) + 2)%nat by lia.
  rewrite ticks_add. set (s2 := ticks 2 st) in *. clearbody s2.
  rewrite ticks_fix by assumption. exact H2.
Qed.

(** ** Bits of a row mask *)

Lemma bit_set_testbit x c : 0 ≤ c → bit_set x c = Z.testbit x c.
Proof.
  intros Hc. unfold bit_set. rewrite Z.shiftl_1_l.
  destruct (Z.testbit x c) eqn:E.
  - apply negb_true_iff, Z.eqb_neq. intros H.
    assert (Hb : Z.testbit (Z.land x (2 ^ c)) c = true).
    { rewrite Z.land_spec, E, Z.pow2_bits_true by assumption. reflexivity. }
    rewrite H, Z.bits_0 in Hb. discriminate.
  - apply negb_false_iff, Z.eqb_eq, Z.bits_inj'. intros n Hn.
    rewrite Z.land_spec, Z.bits_0.
    destruct (decide (n = c)) as [->|Hne].
    + rewrite E. reflexivity.
    + rewrite Z.pow2_bits_false by lia. apply andb_false_r.
Qed.

Lemma u8_testbit x i :
  0 ≤ i → Z.testbit (u8 x) i = (i <? 8) && Z.testbit x i.
Proof.
  intros Hi. unfold u8. change 256 with (2 ^ 8).
  destruct (Z.ltb_spec i 8).
  - rewrite Z.mod_pow2_bits_low by lia. reflexivity.
  - rewrite Z.mod_pow2_bits_high by lia. reflexivity.
Qed.

Lemma u8_range x : 0 ≤ u8 x < 256.
Proof. unfold u8. apply Z.mod_pos_bound. lia. Qed.

Lemma or_bit_testbit x c i :
  0 ≤ c → 0 ≤ i < 8 →
  Z.testbit (or_bit x c) i = Z.testbit x i || bool_decide (i = c).
Proof.
  intros Hc Hi. unfold or_bit.
  rewrite u8_testbit, Z.lor_spec, Z.shiftl_1_l by lia.
  destruct (Z.ltb_spec i 8); [|lia]. cbn [andb]. f_equal.
  case_bool_decide as Hic.
  - subst. by apply Z.pow2_bits_true.
  - apply Z.pow2_bits_false. congruence.
Qed.

(** Two [uint8_t] with the same low eight bits are equal. *)
Lemma byte_ext a b :
  0 ≤ a < 256 → 0 ≤ b < 256 →
  (∀ i, 0 ≤ i < 8 → Z.testbit a i = Z.testbit b i) → a = b.
Proof.
  intros Ha Hb H.
  rewrite <- (Z.mod_small a 256), <- (Z.mod_small b 256) by assumption.
  fold (u8 a) (u8 b). apply Z.bits_inj'. intros i Hi.
  rewrite !u8_testbit by assumption.
  destruct (Z.ltb_spec i 8); [|reflexivity]. cbn [andb]. apply H. lia.
Qed.

Lemma bitmap_ext m m' :
  bitmap m → bitmap m' →
  (∀ r c, 0 ≤ r < 8 → 0 ≤ c < 8 → bitAt m r c = bitAt m' r c) → m = m'.
Proof.
  intros [Hl Hb] [Hl' Hb'] H. apply list_eq_same_length with 8%nat; try assumption.
  intros i x y Hi Hx Hy.
  rewrite Forall_forall in Hb, Hb'.
  apply byte_ext.
  - apply Hb. by eapply list_elem_of_lookup_2.
  - apply Hb'. by eapply list_elem_of_lookup_2.
  - intros c Hc. specialize (H (Z.of_nat i) c ltac:(lia) Hc).
    unfold bitAt, aget in H. rewrite !decide_True, !Nat2Z.id in H by lia.
    by rewrite Hx, Hy in H.
Qed.

(** ** Rotation of a bitmap *)

(** The two loops of [applyRotation] visit the cells row by row. *)
Lemma loops_cells {S} (f : Z → Z → S → S) (s : S) :
  for_loop 0 8 (λ r s, for_loop 0 8 (λ c s, f r c s) s) s
  = foldl (λ s p, f p.1 p.2 s) s cells.
Proof. reflexivity. Qed.

(** Exactly one element of [l] passes the test [g]. *)
Lemma existsb_unique {A} (f g : A → bool) (l : list A) (x0 : A) :
  NoDup l → x0 ∈ l → (∀ x, x ∈ l → g x = true ↔ x = x0) →
  existsb (λ x, f x && g x) l = f x0.
Proof.
  intros Hnd Hin Hg. induction l as [|x l IH]; [by apply elem_of_nil in Hin|].
  apply NoDup_cons in Hnd as [Hx Hnd]. simpl.
  apply elem_of_cons in Hin as [<-|Hin].
  - rewrite (proj2 (Hg x0 ltac:(left)) eq_refl), andb_true_r.
    destruct (f x0); [reflexivity|]. simpl.
    apply not_true_is_false. intros Hex. apply existsb_exists in Hex as (y & Hy & Hfg).
    apply andb_true_iff in Hfg as [_ Hgy].
    apply list_elem_of_In in Hy.
    apply Hg in Hgy; [|by right]. subst. contradiction.
  - assert (Hgx : g x = false).
    { apply not_true_is_false. intros Hgx. apply Hg in Hgx; [|left].
      subst. contradiction. }
    rewrite Hgx, andb_false_r. simpl. apply IH; try assumption.
    intros y Hy. apply Hg. by right.
Qed.

Section rotation.
Variables (src : list Z) (deg : Z).

(** The rotation keeps coordinates on the grid. *)
Hypothesis rotate8_range : ∀ x y,
  0 ≤ x < 8 → 0 ≤ y < 8 →
  0 ≤ (rotate8 x y deg).1 < 8 ∧ 0 ≤ (rotate8 x y deg).2 < 8.

Lemma applyRotation_plot :
  applyRotation src deg = foldl (λ d p, plot src deg p.1 p.2 d) (replicate 8 0) cells.
Proof. unfold applyRotation. cbv zeta. rewrite loops_cells. reflexivity. Qed.

Lemma plot_spec r c dst :
  0 ≤ r < 8 → 0 ≤ c < 8 → bitmap dst →
  bitmap (plot src deg r c dst) ∧
  ∀ i j, 0 ≤ i < 8 → 0 ≤ j < 8 →
    bitAt (plot src deg r c dst) j i =
      bitAt dst j i
      || (bitAt src r c && bool_decide (rotate8 c r deg = (i, j))).
Proof.
  intros Hr Hc [Hl Hb]. unfold plot.
  rewrite bit_set_testbit by lia. fold (bitAt src r c).
  destruct (bitAt src r c); [|split; [by split|]; intros; by rewrite orb_false_r].
  destruct (rotate8_range c r Hc Hr) as [Hrx Hry].
  destruct (rotate8 c r deg) as [rx ry]. simpl in Hrx, Hry.
  split.
  - split; [by rewrite length_aset|].
    unfold aset. rewrite decide_True by lia.
    apply Forall_insert; [assumption|]. apply u8_range.
  - intros i j Hi Hj. unfold bitAt. cbn [andb].
    destruct (decide (j = ry)) as [->|Hne].
    + rewrite aget_aset_eq by lia. rewrite or_bit_testbit by lia.
      f_equal. apply bool_decide_ext. split; [by intros ->|by intros [= ->]].
    + rewrite aget_aset_ne by congruence.
      rewrite bool_decide_eq_false_2 by congruence. by rewrite orb_false_r.
Qed.

Lemma fold_plot_spec l dst :
  (∀ p, p ∈ l → 0 ≤ p.1 < 8 ∧ 0 ≤ p.2 < 8) → bitmap dst →
  bitmap (foldl (λ d p, plot src deg p.1 p.2 d) dst l) ∧
  ∀ i j, 0 ≤ i < 8 → 0 ≤ j < 8 →
    bitAt (foldl (λ d p, plot src deg p.1 p.2 d) dst l) j i =
      bitAt dst j i
      || existsb (λ p, bitAt src p.1 p.2
                       && bool_decide (rotate8 p.2 p.1 deg = (i, j))) l.
Proof.
  revert dst. induction l as [|p l IH]; intros dst Hl Hd.
  - split; [assumption|]. intros. simpl. by rewrite orb_false_r.
  - simpl.
    destruct (Hl p ltac:(left)) as [Hp1 Hp2].
    destruct (plot_spec p.1 p.2 dst Hp1 Hp2 Hd) as [Hd' Hbits].
    destruct (IH (plot src deg p.1 p.2 dst) (λ q Hq, Hl q ltac:(by right)) Hd')
      as [Hd'' Hbits'].
    split; [assumption|]. intros i j Hi Hj.
    rewrite Hbits', Hbits by assumption. by rewrite orb_assoc.
Qed.

Lemma bitmap_zero : bitmap (replicate 8 0).
Proof. split; [reflexivity|]. repeat constructor; lia. Qed.

Lemma applyRotation_bitmap : bitmap (applyRotation src deg).
Proof.
  rewrite applyRotation_plot. apply fold_plot_spec; [|apply bitmap_zero].
  intros [r c] Hp. apply elem_of_cells in Hp. simpl. lia.
Qed.

(** A bit of the result is the bit of the source cell that the rotation
    sends there. *)
Lemma applyRotation_bit i j r c :
  0 ≤ i < 8 → 0 ≤ j < 8 → 0 ≤ r < 8 → 0 ≤ c < 8 →
  (∀ r' c', 0 ≤ r' < 8 → 0 ≤ c' < 8 →
     rotate8 c' r' deg = (i, j) ↔ (r', c') = (r, c)) →
  bitAt (applyRotation src deg) j i = bitAt src r c.
Proof.
  intros Hi Hj Hr Hc Hinv. rewrite applyRotation_plot.
  destruct (fold_plot_spec cells (replicate 8 0)) as [_ Hbits].
  { intros [r' c'] Hp. apply elem_of_cells in Hp. simpl. lia. }
  { apply bitmap_zero. }
  rewrite Hbits by assumption.
  replace (bitAt (replicate 8 0) j i) with false.
  2:{ unfold bitAt. symmetry.
      assert (Hz : aget 0 (replicate 8 0) j = 0).
      { unfold aget. case_decide; [|reflexivity].
        destruct (replicate 8 0 !! Z.to_nat j) eqn:E; [|reflexivity].
        apply lookup_replicate in E as [-> _]. reflexivity. }
      rewrite Hz. apply Z.bits_0. }
  cbn [orb].
  rewrite (existsb_unique (λ p, bitAt src p.1 p.2) _ cells (r, c)).
  - reflexivity.
  - apply NoDup_cells.
  - apply elem_of_cells. lia.
  - intros [r' c'] Hp. apply elem_of_cells in Hp. simpl.
    rewrite bool_decide_eq_true. apply Hinv; lia.
Qed.
End rotation.

Lemma rotate8_90 x y : rotate8 x y 90 = (u8 (7 - y), x).
Proof. reflexivity. Qed.

Lemma rotate8_90_range x y :
  0 ≤ x < 8 → 0 ≤ y < 8 →
  0 ≤ (rotate8 x y 90).1 < 8 ∧ 0 ≤ (rotate8 x y 90).2 < 8.
Proof.
  intros Hx Hy. rewrite rotate8_90. unfold u8. simpl.
  rewrite Z.mod_small by lia. lia.
Qed.

(** A quarter turn: bit [i] of row [j] of the result is bit [j] of row
    [7 - i] of the source. *)
Lemma rotate90_bit src i j :
  0 ≤ i < 8 → 0 ≤ j < 8 →
  bitAt (applyRotation src 90) j i = bitAt src (7 - i) j.
Proof.
  intros Hi Hj.
  apply applyRotation_bit; try lia; [apply rotate8_90_range|].
  intros r c Hr Hc. rewrite rotate8_90. unfold u8.
  rewrite Z.mod_small by lia.
  split; intros [= ? ?]; f_equal; lia.
Qed.

(** C6: four quarter turns in a row give back the bitmap they started
    from. *)
Theorem rotate_four_times m :
  bitmap m →
  applyRotation
    (applyRotation (applyRotation (applyRotation m 90) 90) 90) 90 = m.
Proof.
  intros Hm. apply bitmap_ext; [|assumption|].
  - apply applyRotation_bitmap, rotate8_90_range.
  - intros r c Hr Hc.
    rewrite !rotate90_bit by lia.
    f_equal; lia.
Qed.

Lemma rotate_four_times_witness :
  bitmap [1; 2; 4; 8; 255; 0; 129; 7] ∧
  applyRotation [1; 2; 4; 8; 255; 0; 129; 7] 90 = [139; 73; 41; 24; 8; 8; 8; 10] ∧
  applyRotation
    (applyRotation
       (applyRotation (applyRotation [1; 2; 4; 8; 255; 0; 129; 7] 90) 90)
       90) 90 = [1; 2; 4; 8; 255; 0; 129; 7].
Proof.
  assert (H : bitmap [1; 2; 4; 8; 255; 0; 129; 7]).
  { split; [reflexivity|]. repeat constructor; lia. }
  split; [exact H|]. split; [vm_compute; reflexivity|].
  exact (rotate_four_times _ H).
Defined.

(** * Further properties of the sketch *)

(** ** The orientation mapper at every angle *)

Lemma normalise_deg deg : Z.rem (Z.rem deg 360 + 360) 360 = deg mod 360.
Proof. Z.to_euclidean_division_equations. lia. Qed.

Lemma rotate8_mod x y deg :
  rotate8 x y deg =
    let d := deg mod 360 in
    if d =? 0 then (x, y)
    else if d =? 90 then (u8 (7 - y), x)
    else if d =? 180 then (u8 (7 - x), u8 (7 - y))
    else if d =? 270 then (y, u8 (7 - x))
    else (x, y).
Proof. unfold rotate8. cbv zeta. rewrite normalise_deg. reflexivity. Qed.

Lemma u8_small x : 0 ≤ x < 256 → u8 x = x.
Proof. intros. unfold u8. apply Z.mod_small. lia. Qed.

Ltac case_deg d :=
  destruct (Z.eqb_spec d 0); [|destruct (Z.eqb_spec d 90);
    [|destruct (Z.eqb_spec d 180); [|destruct (Z.eqb_spec d 270)]]].

Lemma rotate8_range x y deg :
  0 ≤ x < 8 → 0 ≤ y < 8 →
  0 ≤ (rotate8 x y deg).1 < 8 ∧ 0 ≤ (rotate8 x y deg).2 < 8.
Proof.
  intros Hx Hy. rewrite rotate8_mod. cbv zeta.
  case_deg (deg mod 360); cbn [fst snd]; rewrite ?u8_small by lia; lia.
Qed.

(** X1: the angle only counts modulo a full turn, so a negative angle
    acts as its positive counterpart. *)
Theorem rotate8_angle x y deg :
  rotate8 x y deg = rotate8 x y (deg mod 360) ∧
  rotate8 x y (deg + 360) = rotate8 x y deg ∧
  rotate8 x y (deg - 360) = rotate8 x y deg.
Proof.
  rewrite !rotate8_mod. cbv zeta.
  replace ((deg + 360) mod 360) with (deg mod 360)
    by (Z.to_euclidean_division_equations; lia).
  replace ((deg - 360) mod 360) with (deg mod 360)
    by (Z.to_euclidean_division_equations; lia).
  by rewrite Z.mod_mod.
Qed.

(** X2: an angle that is not a multiple of a quarter turn leaves the
    coordinates as they are. *)
Theorem rotate8_off_angle x y deg :
  deg mod 90 ≠ 0 → rotate8 x y deg = (x, y).
Proof.
  intros H. rewrite rotate8_mod. cbv zeta.
  case_deg (deg mod 360); try reflexivity; exfalso; apply H;
    Z.to_euclidean_division_equations; lia.
Qed.

Lemma rotate8_off_angle_witness :
  45 mod 90 ≠ 0 ∧ rotate8 3 5 45 = (3, 5).
Proof.
  assert (H : 45 mod 90 ≠ 0) by (vm_compute; discriminate).
  split; [exact H|exact (rotate8_off_angle 3 5 45 H)].
Defined.

(** X3: on the grid every rotation stays on the grid, and the rotation by
    the opposite angle takes each cell back. *)
Theorem rotate8_inverse x y deg :
  0 ≤ x < 8 → 0 ≤ y < 8 →
  (0 ≤ (rotate8 x y deg).1 < 8 ∧ 0 ≤ (rotate8 x y deg).2 < 8) ∧
  rotate8 (rotate8 x y deg).1 (rotate8 x y deg).2 (- deg) = (x, y).
Proof.
  intros Hx Hy. split; [by apply rotate8_range|].
  rewrite !rotate8_mod. cbv zeta.
  assert (Hneg : (- deg) mod 360 =
                 if deg mod 360 =? 0 then 0 else 360 - deg mod 360).
  { destruct (Z.eqb_spec (deg mod 360) 0);
      Z.to_euclidean_division_equations; lia. }
  rewrite Hneg.
  pose proof (Z.mod_pos_bound deg 360 ltac:(lia)) as Hd.
  generalize dependent (deg mod 360). intros d _ Hd.
  repeat match goal with
         | |- context [?a =? ?b] => destruct (Z.eqb_spec a b); try lia
         end;
    subst; cbn [fst snd]; rewrite ?u8_small by (rewrite ?u8_small by lia; lia);
    f_equal; lia.
Qed.

(** ** [applyRotation] at every angle *)

Lemma sourceCell_range deg r c :
  0 ≤ r < 8 → 0 ≤ c < 8 →
  0 ≤ (sourceCell deg r c).1 < 8 ∧ 0 ≤ (sourceCell deg r c).2 < 8.
Proof.
  intros Hr Hc. unfold sourceCell. cbv zeta.
  repeat match goal with
         | |- context [?a =? ?b] => destruct (Z.eqb_spec a b)
         end; cbn [fst snd]; lia.
Qed.

Lemma applyRotation_bits src deg r c :
  0 ≤ r < 8 → 0 ≤ c < 8 →
  bitAt (applyRotation src deg) r c =
    bitAt src (sourceCell deg r c).1 (sourceCell deg r c).2.
Proof.
  intros Hr Hc.
  destruct (sourceCell_range deg r c Hr Hc) as [H1 H2].
  apply (applyRotation_bit src deg (λ x y, rotate8_range x y deg));
    try assumption.
  intros r' c' Hr' Hc'. rewrite rotate8_mod.
  revert H1 H2. unfold sourceCell. cbv zeta.
  generalize (deg mod 360). intros d.
  repeat match goal with
         | |- context [?a =? ?b] => destruct (Z.eqb_spec a b); try lia
         end;
    cbn [fst snd]; intros H1 H2; rewrite ?u8_small by lia;
    (split; intros [= ? ?]; f_equal; lia).
Qed.

Lemma applyRotation_is_bitmap src deg : bitmap (applyRotation src deg).
Proof. apply applyRotation_bitmap. intros x y. apply rotate8_range. Qed.

Lemma sourceCell_inverse deg r c :
  0 ≤ r < 8 → 0 ≤ c < 8 →
  sourceCell deg (sourceCell (- deg) r c).1 (sourceCell (- deg) r c).2
    = (r, c).
Proof.
  intros Hr Hc. unfold sourceCell. cbv zeta.
  assert (Hneg : (- deg) mod 360 = 0 ∧ deg mod 360 = 0
                 ∨ (- deg) mod 360 = 360 - deg mod 360 ∧ 0 < deg mod 360 < 360).
  { Z.to_euclidean_division_equations. lia. }
  revert Hneg. generalize (deg mod 360) ((- deg) mod 360). intros d nd Hneg.
  repeat match goal with
         | |- context [?a =? ?b] => destruct (Z.eqb_spec a b); try lia
         end;
    cbn [fst snd]; f_equal; lia.
Qed.

(** X4: rotating back by the opposite angle restores the bitmap; the two
    panel angles of the sketch undo each other. *)
Theorem applyRotation_inverse m deg :
  bitmap m →
  applyRotation (applyRotation m deg) (- deg) = m ∧
  applyRotation (applyRotation m TOP_ROT_DEG) BOT_ROT_DEG = m ∧
  applyRotation (applyRotation m BOT_ROT_DEG) TOP_ROT_DEG = m.
Proof.
  intros Hm.
  assert (Hgen : ∀ a b,
    (∀ r c, 0 ≤ r < 8 → 0 ≤ c < 8 →
       sourceCell a (sourceCell b r c).1 (sourceCell b r c).2 = (r, c)) →
    applyRotation (applyRotation m a) b = m).
  { intros a b Hab. apply bitmap_ext; [apply applyRotation_is_bitmap|assumption|].
    intros r c Hr Hc.
    destruct (sourceCell_range b r c Hr Hc) as [H1 H2].
    rewrite applyRotation_bits by assumption.
    rewrite applyRotation_bits by assumption.
    rewrite (Hab r c Hr Hc). reflexivity. }
  split; [|split].
  - apply Hgen. intros. by apply sourceCell_inverse.
  - apply Hgen. intros r c Hr Hc. apply (sourceCell_inverse 90 r c Hr Hc).
  - apply Hgen. intros r c Hr Hc. apply (sourceCell_inverse 270 r c Hr Hc).
Qed.

Lemma applyRotation_inverse_witness :
  bitmap [1; 2; 4; 8; 255; 0; 129; 7] ∧
  applyRotation (applyRotation [1; 2; 4; 8; 255; 0; 129; 7] 450) (- 450)
    = [1; 2; 4; 8; 255; 0; 129; 7].
Proof.
  assert (H : bitmap [1; 2; 4; 8; 255; 0; 129; 7]).
  { split; [reflexivity|]. repeat constructor; lia. }
  pose proof (applyRotation_inverse _ 450 H) as (H1 & _).
  split; [exact H|exact H1].
Defined.

Lemma rotate8_inverse_witness :
  (0 ≤ 2 < 8 ∧ 0 ≤ 5 < 8) ∧
  rotate8 2 5 90 = (2, 2) ∧ rotate8 2 2 (- 90) = (2, 5).
Proof.
  assert (H1 : 0 ≤ 2 < 8) by lia. assert (H2 : 0 ≤ 5 < 8) by lia.
  pose proof (rotate8_inverse 2 5 90 H1 H2) as (_ & H).
  split; [split; [exact H1|exact H2]|]. split; [reflexivity|exact H].
Defined.

Lemma count_if_Permutation {A} (f : A → bool) l l' :
  l ≡ₚ l' → count_if f l = count_if f l'.
Proof.
  induction 1 as [|x l l' _ IH|x y l|l l' l'' _ IH1 _ IH2]; simpl; lia.
Qed.

Lemma count_if_map {A B} (f : B → bool) (g : A → B) l :
  count_if f (g <$> l) = count_if (λ x, f (g x)) l.
Proof. induction l as [|x l IH]; csimpl; [reflexivity|]. by rewrite IH. Qed.

Lemma sourceCell_cases deg :
  (∀ r c, sourceCell deg r c = (7 - c, r)) ∨
  (∀ r c, sourceCell deg r c = (7 - r, 7 - c)) ∨
  (∀ r c, sourceCell deg r c = (c, 7 - r)) ∨
  (∀ r c, sourceCell deg r c = (r, c)).
Proof.
  unfold sourceCell. cbv zeta.
  destruct (Z.eqb_spec (deg mod 360) 90); [by left|].
  destruct (Z.eqb_spec (deg mod 360) 180); [by right; left|].
  destruct (Z.eqb_spec (deg mod 360) 270); [by right; right; left|].
  by right; right; right.
Qed.

(** The cells a rotation reads are the cells of the grid, each once. *)
Lemma sourceCell_cells deg :
  (λ p, sourceCell deg p.1 p.2) <$> cells ≡ₚ cells.
Proof.
  assert (Hperm : ∀ l : list (Z * Z),
    NoDup l → Forall (λ p, p ∈ cells) l → Forall (λ p, p ∈ l) cells →
    l ≡ₚ cells).
  { intros l Hnd H1 H2. apply NoDup_Permutation; [assumption|apply NoDup_cells|].
    rewrite Forall_forall in H1, H2. intros p. split; auto. }
  destruct (sourceCell_cases deg) as [H|[H|[H|H]]];
    (erewrite list_fmap_ext; [|intros i p _; apply H]);
    (apply Hperm; apply (bool_decide_unpack _); vm_compute; exact I).
Qed.

Lemma countX_bitAt m : countX m = count_if (λ p, bitAt m p.1 p.2) cells.
Proof.
  unfold countX. apply count_if_ext. intros [r c] Hp.
  apply elem_of_cells in Hp. simpl. apply bit_set_testbit. lia.
Qed.

(** X5: whatever the angle and whatever the array it is given, the result
    of a rotation is eight bytes and has as many lit cells as the source:
    no cell is lost and none is invented. *)
Theorem applyRotation_count m deg :
  bitmap (applyRotation m deg) ∧
  countX (applyRotation m deg) = countX m.
Proof.
  split; [apply applyRotation_is_bitmap|].
  rewrite !countX_bitAt.
  rewrite <- (count_if_Permutation (λ p, bitAt m p.1 p.2) _ _
                (sourceCell_cells deg)).
  rewrite count_if_map. apply count_if_ext.
  intros [r c] Hp. apply elem_of_cells in Hp. cbn [fst snd].
  apply applyRotation_bits; lia.
Qed.


(** ** The frame compositor *)

Lemma clear_bit_testbit x c i :
  0 ≤ c → 0 ≤ i < 8 →
  Z.testbit (clear_bit x c) i = Z.testbit x i && negb (bool_decide (i = c)).
Proof.
  intros Hc Hi. unfold clear_bit.
  rewrite u8_testbit, Z.land_spec, Z.lnot_spec, Z.shiftl_1_l by lia.
  destruct (Z.ltb_spec i 8); [|lia]. cbn [andb]. f_equal. f_equal.
  case_bool_decide as Hic.
  - subst. by apply Z.pow2_bits_true.
  - apply Z.pow2_bits_false. congruence.
Qed.

(** Setting the bits of the cells of [l] that satisfy [f]. *)
Lemma paint_spec (f : Z → Z → bool) l dst :
  (∀ p, p ∈ l → 0 ≤ p.1 < 8 ∧ 0 ≤ p.2 < 8) → bitmap dst →
  let res :=
    foldl (λ m p, if f p.1 p.2 then aset m p.1 (or_bit (aget 0 m p.1) p.2)
                  else m) dst l in
  bitmap res ∧
  ∀ r c, 0 ≤ r < 8 → 0 ≤ c < 8 →
    bitAt res r c = bitAt dst r c || (f r c && bool_decide ((r, c) ∈ l)).
Proof.
  revert dst. induction l as [|p l IH]; intros dst Hl Hd res.
  - split; [assumption|]. intros r c _ _. subst res. cbn [foldl].
    rewrite bool_decide_eq_false_2 by apply not_elem_of_nil.
    by rewrite andb_false_r, orb_false_r.
  - destruct (Hl p ltac:(left)) as [Hp1 Hp2]. destruct Hd as [Hlen Hb].
    set (dst' := if f p.1 p.2 then aset dst p.1 (or_bit (aget 0 dst p.1) p.2)
                 else dst).
    assert (Hd' : bitmap dst').
    { subst dst'. destruct (f p.1 p.2); [|by split].
      split; [by rewrite length_aset|].
      unfold aset. rewrite decide_True by lia.
      apply Forall_insert; [assumption|apply u8_range]. }
    assert (Hbit : ∀ r c, 0 ≤ r < 8 → 0 ≤ c < 8 →
      bitAt dst' r c = bitAt dst r c || (f r c && bool_decide ((r, c) = p))).
    { intros r c Hr Hc. subst dst'. destruct p as [pr pc]. cbn [fst snd] in *.
      destruct (decide ((r, c) = (pr, pc))) as [[= -> ->]|Hne].
      - rewrite bool_decide_eq_true_2 by reflexivity. rewrite andb_true_r.
        destruct (f pr pc); [|by rewrite orb_false_r].
        unfold bitAt. rewrite aget_aset_eq by lia.
        rewrite or_bit_testbit by lia.
        rewrite bool_decide_eq_true_2 by reflexivity. by rewrite !orb_true_r.
      - rewrite bool_decide_eq_false_2 by assumption.
        rewrite andb_false_r, orb_false_r.
        destruct (f pr pc); [|reflexivity].
        unfold bitAt. destruct (decide (r = pr)) as [->|Hr'].
        + rewrite aget_aset_eq by lia. rewrite or_bit_testbit by lia.
          rewrite bool_decide_eq_false_2 by congruence. by rewrite orb_false_r.
        + by rewrite aget_aset_ne by congruence. }
    destruct (IH dst' (λ q Hq, Hl q ltac:(by right)) Hd') as [Hres Hbits].
    split; [exact Hres|]. intros r c Hr Hc.
    subst res. cbn [foldl]. fold dst'. rewrite Hbits, Hbit by assumption.
    rewrite <- orb_assoc. f_equal.
    destruct (f r c); [|reflexivity]. cbn [andb].
    destruct (decide ((r, c) = p)) as [<-|Hne].
    + rewrite bool_decide_eq_true_2 by reflexivity.
      rewrite (bool_decide_eq_true_2 ((r, c) ∈ (r, c) :: l)) by left. reflexivity.
    + rewrite (bool_decide_eq_false_2 ((r, c) = p)) by assumption. cbn [orb].
      apply bool_decide_ext. rewrite elem_of_cons.
      split; [intros ?; by right|intros [?|?]; [contradiction|assumption]].
Qed.

Lemma bitAt_zero r c : bitAt (replicate 8 0) r c = false.
Proof.
  unfold bitAt.
  assert (Hz : aget 0 (replicate 8 0) r = 0).
  { unfold aget. case_decide; [|reflexivity].
    destruct (replicate 8 0 !! Z.to_nat r) eqn:E; [|reflexivity].
    apply lookup_replicate in E as [-> _]. reflexivity. }
  rewrite Hz. apply Z.bits_0.
Qed.

(** The bits [buildMaskY] leaves in [maskY]. *)
Lemma buildMaskY_bits st :
  length (maskY st) = 8%nat →
  bitmap (maskY (buildMaskY st)) ∧
  ∀ r c, 0 ≤ r < 8 → 0 ≤ c < 8 →
    bitAt (maskY (buildMaskY st)) r c = targetPixel st r c.
Proof.
  intros Hlen. unfold buildMaskY. cbv zeta. fields.
  rewrite zero_loop by assumption. rewrite loops_cells.
  destruct (paint_spec (yget (yStatic st)) cells (replicate 8 0))
    as [Hb Hbits].
  { intros [r c] Hp. apply elem_of_cells in Hp. simpl. lia. }
  { apply bitmap_zero. }
  cbv zeta in Hb, Hbits.
  set (m := foldl _ (replicate 8 0) cells) in *.
  assert (Hm : ∀ r c, 0 ≤ r < 8 → 0 ≤ c < 8 →
                      bitAt m r c = yget (yStatic st) r c).
  { intros r c Hr Hc. rewrite Hbits, bitAt_zero by assumption. cbn [orb].
    rewrite bool_decide_eq_true_2 by (apply elem_of_cells; lia).
    apply andb_true_r. }
  unfold targetPixel.
  destruct (grainActive st); cbn [andb];
    [|split; [exact Hb|]; intros r c Hr Hc; rewrite Hm by assumption;
      by rewrite orb_false_r].
  unfold inGrid.
  destruct (Z.leb_spec 0 (grRow st)), (Z.ltb_spec (grRow st) 8),
    (Z.leb_spec 0 (grCol st)), (Z.ltb_spec (grCol st) 8); cbn [andb];
    try (split; [exact Hb|]; intros r c Hr Hc; rewrite Hm by assumption;
         rewrite bool_decide_eq_false_2 by (intros [= ? ?]; lia);
         by rewrite orb_false_r).
  destruct Hb as [Hl Hf]. split.
  - split; [by rewrite length_aset|].
    unfold aset. rewrite decide_True by lia.
    apply Forall_insert; [assumption|apply u8_range].
  - intros r c Hr Hc. unfold bitAt.
    destruct (decide (r = grRow st)) as [->|Hne].
    + rewrite aget_aset_eq by lia. rewrite or_bit_testbit by lia.
      fold (bitAt m (grRow st) c). rewrite Hm by assumption. f_equal.
      apply bool_decide_ext. split; [by intros ->|by intros [= ->]].
    + rewrite aget_aset_ne by congruence. fold (bitAt m r c).
      rewrite Hm by assumption.
      rewrite bool_decide_eq_false_2 by congruence. by rewrite orb_false_r.
Qed.

(** X6: [buildMaskY] makes the target field the union of the settled
    sand and the grain in flight. *)
Theorem buildMaskY_union st :
  length (maskY st) = 8%nat →
  bitmap (maskY (buildMaskY st)) ∧
  ∀ r c, 0 ≤ r < 8 → 0 ≤ c < 8 →
    bitAt (maskY (buildMaskY st)) r c = targetPixel st r c.
Proof. exact (buildMaskY_bits st). Qed.

Lemma buildMaskY_union_witness :
  length (maskY (steadyRun 3)) = 8%nat ∧
  bitAt (maskY (buildMaskY (steadyRun 3))) 5 5 = targetPixel (steadyRun 3) 5 5.
Proof.
  assert (H : length (maskY (steadyRun 3)) = 8%nat) by (vm_compute; reflexivity).
  pose proof (buildMaskY_union _ H) as (_ & H').
  split; [exact H|]. apply H'; lia.
Defined.

Lemma rotate270_bit src r c :
  0 ≤ r < 8 → 0 ≤ c < 8 →
  bitAt (applyRotation src 270) r c = bitAt src c (7 - r).
Proof. intros Hr Hc. by rewrite applyRotation_bits. Qed.

Lemma sendFrame_bitmap addr m :
  length m = 8%nat → sendFrame addr m = (addr, m ++ colourBytes).
Proof.
  intros H. destruct (length8_inv _ H) as (?&?&?&?&?&?&?&?&->). reflexivity.
Qed.

(** The source bitmap with the hole punched out, as [renderFrame] builds
    it in [tempX]. *)
Lemma punch_hole m (active : bool) hr hc :
  bitmap m →
  let m' :=
    if active then
      if inGrid hr hc then aset m hr (clear_bit (aget 0 m hr) hc) else m
    else m in
  bitmap m' ∧
  ∀ r c, 0 ≤ r < 8 → 0 ≤ c < 8 →
    bitAt m' r c =
      bitAt m r c && negb (active && bool_decide ((hr, hc) = (r, c))).
Proof.
  intros [Hl Hb] m'. subst m'.
  destruct active; cbn [andb];
    [|split; [by split|]; intros; by rewrite andb_true_r].
  unfold inGrid.
  destruct (Z.leb_spec 0 hr), (Z.ltb_spec hr 8),
    (Z.leb_spec 0 hc), (Z.ltb_spec hc 8); cbn [andb];
    try (split; [by split|]; intros r c Hr Hc;
         rewrite bool_decide_eq_false_2 by (intros [= ? ?]; lia);
         by rewrite andb_true_r).
  split.
  - split; [by rewrite length_aset|].
    unfold aset. rewrite decide_True by lia.
    apply Forall_insert; [assumption|apply u8_range].
  - intros r c Hr Hc. unfold bitAt.
    destruct (decide (r = hr)) as [->|Hne].
    + rewrite aget_aset_eq by lia. rewrite clear_bit_testbit by lia.
      f_equal. f_equal. apply bool_decide_ext.
      split; [by intros ->|by intros [= ->]].
    + rewrite aget_aset_ne by congruence.
      rewrite bool_decide_eq_false_2 by congruence. by rewrite andb_true_r.
Qed.

(** The frames of [renderFrame], bit by bit. *)
Lemma renderFrame_bits st :
  bitmap (maskX st) → length (maskY st) = 8%nat →
  ∃ top bot,
    (renderFrame st).2
      = [(TOP_ADDR, top ++ colourBytes); (BOT_ADDR, bot ++ colourBytes)] ∧
    bitmap top ∧ bitmap bot ∧
    ∀ r c, 0 ≤ r < 8 → 0 ≤ c < 8 →
      bitAt top c (7 - r) =
        (if topToBottom st then sourcePixel st r c else targetPixel st r c) ∧
      bitAt bot (7 - c) r =
        (if topToBottom st then targetPixel st r c else sourcePixel st r c).
Proof.
  intros Hx Hy.
  destruct (buildMaskY_bits st Hy) as [HbY HY].
  destruct (punch_hole (maskX st) (topHoleActive st) (holeRow st) (holeCol st) Hx)
    as [HbX HX]. cbv zeta in HbX, HX.
  unfold renderFrame. cbv zeta.
  change (maskX (buildMaskY st)) with (maskX st).
  change (topHoleActive (buildMaskY st)) with (topHoleActive st).
  change (holeRow (buildMaskY st)) with (holeRow st).
  change (holeCol (buildMaskY st)) with (holeCol st).
  change (topToBottom (buildMaskY st)) with (topToBottom st).
  set (tempX := if topHoleActive st then _ else _) in *.
  set (tempY := maskY (buildMaskY st)) in *.
  assert (H90 : ∀ m r c, 0 ≤ r < 8 → 0 ≤ c < 8 →
    bitAt (applyRotation m TOP_ROT_DEG) c (7 - r) = bitAt m r c).
  { intros m r c Hr Hc. unfold TOP_ROT_DEG. rewrite rotate90_bit by lia.
    f_equal. lia. }
  assert (H270 : ∀ m r c, 0 ≤ r < 8 → 0 ≤ c < 8 →
    bitAt (applyRotation m BOT_ROT_DEG) (7 - c) r = bitAt m r c).
  { intros m r c Hr Hc. unfold BOT_ROT_DEG. rewrite rotate270_bit by lia.
    f_equal. lia. }
  destruct (topToBottom st); cbn [snd].
  - exists (applyRotation tempX TOP_ROT_DEG), (applyRotation tempY BOT_ROT_DEG).
    rewrite !sendFrame_bitmap by apply applyRotation_is_bitmap.
    split; [reflexivity|].
    split; [apply applyRotation_is_bitmap|].
    split; [apply applyRotation_is_bitmap|].
    intros r c Hr Hc. rewrite H90, H270 by assumption.
    split; [by apply HX|by apply HY].
  - exists (applyRotation tempY TOP_ROT_DEG), (applyRotation tempX BOT_ROT_DEG).
    rewrite !sendFrame_bitmap by apply applyRotation_is_bitmap.
    split; [reflexivity|].
    split; [apply applyRotation_is_bitmap|].
    split; [apply applyRotation_is_bitmap|].
    intros r c Hr Hc. rewrite H90, H270 by assumption.
    split; [by apply HY|by apply HX].
Qed.

(** X7: the two frames [renderFrame] puts on the bus.  Each is eight row
    masks followed by the colour; cell [(r, c)] of the field shown on the
    top panel is bit [7 - r] of byte [c], cell [(r, c)] of the field shown
    on the bottom panel is bit [r] of byte [7 - c]; the top panel shows
    the source field (hole punched out) when sand runs top to bottom and
    the target field otherwise, the bottom panel the other one. *)
Theorem renderFrame_pixels st :
  bitmap (maskX st) → length (maskY st) = 8%nat →
  ∃ top bot,
    (renderFrame st).2
      = [(TOP_ADDR, top ++ colourBytes); (BOT_ADDR, bot ++ colourBytes)] ∧
    bitmap top ∧ bitmap bot ∧
    ∀ r c, 0 ≤ r < 8 → 0 ≤ c < 8 →
      bitAt top c (7 - r) =
        (if topToBottom st then sourcePixel st r c else targetPixel st r c) ∧
      bitAt bot (7 - c) r =
        (if topToBottom st then targetPixel st r c else sourcePixel st r c).
Proof. exact (renderFrame_bits st). Qed.

Lemma renderFrame_pixels_witness :
  bitmap (maskX (steadyRun 3)) ∧ length (maskY (steadyRun 3)) = 8%nat ∧
  length (renderFrame (steadyRun 3)).2 = 2%nat.
Proof.
  assert (H1 : bitmap (maskX (steadyRun 3))).
  { split; [vm_compute; reflexivity|].
    apply (bool_decide_unpack _). vm_compute. exact I. }
  assert (H2 : length (maskY (steadyRun 3)) = 8%nat) by (vm_compute; reflexivity).
  destruct (renderFrame_pixels _ H1 H2) as (top & bot & E & _).
  split; [exact H1|]. split; [exact H2|]. rewrite E. reflexivity.
Defined.

(** X8: compositing is idempotent: rendering again right after a render
    gives the same state and the same two frames. *)
Theorem renderFrame_idempotent st :
  length (maskY st) = 8%nat →
  renderFrame (renderFrame st).1 = renderFrame st.
Proof.
  intros H. rewrite renderFrame_state.
  unfold renderFrame. cbv zeta. rewrite buildMaskY_idem by assumption.
  reflexivity.
Qed.

Lemma renderFrame_idempotent_witness :
  length (maskY (steadyRun 3)) = 8%nat ∧
  renderFrame (renderFrame (steadyRun 3)).1 = renderFrame (steadyRun 3).
Proof.
  assert (H : length (maskY (steadyRun 3)) = 8%nat) by (vm_compute; reflexivity).
  split; [exact H|exact (renderFrame_idempotent _ H)].
Defined.


(** ** What a tick leaves alone *)

Lemma clock_moveHole st : clock (moveHole st) = clock st.
Proof.
  unfold moveHole. destruct (topHoleActive st); [|reflexivity].
  destruct (_ && _); reflexivity.
Qed.

Lemma clock_settleGrain st : clock (settleGrain st) = clock st.
Proof.
  unfold settleGrain. cbv zeta.
  destruct (inGrid _ _); fields; destruct (_ >=? _); reflexivity.
Qed.

Lemma clock_moveGrain st : clock (moveGrain st).1 = clock st.
Proof.
  destruct (moveGrain_spec st) as (r & c & t & moved & E & _).
  rewrite E. reflexivity.
Qed.

Lemma clock_buildMaskY st : clock (buildMaskY st) = clock st.
Proof. reflexivity. Qed.

Lemma clock_step st : clock (step st) = clock st.
Proof.
  destruct (finished st) eqn:Hf;
    [rewrite step_finished by assumption; apply clock_buildMaskY|].
  destruct (grainActive st) eqn:Ha.
  - destruct (moveGrain st).2 eqn:Hm.
    + rewrite step_moved by assumption.
      rewrite clock_buildMaskY.
      by rewrite clock_moveHole, clock_moveGrain.
    + rewrite step_settle by assumption.
      rewrite clock_buildMaskY.
      by rewrite clock_moveHole, clock_settleGrain, clock_moveGrain.
  - destruct (Z.ltb_spec (grainIndex st) 64).
    + rewrite step_spawn by assumption.
      rewrite clock_buildMaskY.
      by rewrite clock_moveHole.
    + rewrite step_idle by assumption.
      rewrite clock_buildMaskY.
      by rewrite clock_moveHole.
Qed.

Lemma lastGravity_step st : lastGravity (step st) = lastGravity st.
Proof. pose proof (clock_step st) as E. unfold clock in E. by injection E. Qed.

Lemma topToBottom_step st : topToBottom (step st) = topToBottom st.
Proof. pose proof (clock_step st) as E. unfold clock in E. by injection E. Qed.

Lemma hole_checkFlip x y now pot nowC st :
  Inv st →
  holeRow (checkFlip x y now pot nowC st) = holeRow st ∧
  holeCol (checkFlip x y now pot nowC st) = holeCol st.
Proof.
  intros [H _].
  destruct H as [HyL Hsh Hrow Hcol HoR HoC Hidx Hact Hfin HmX Hcnt Hds Hfree].
  unfold checkFlip. cbv zeta. destruct (flipRecognized _ _ _); [|by split].
  rewrite startNewCycle_eq; fields; try assumption; [by split|].
  rewrite HmX. apply drained_length.
Qed.

(** X9: the hole never leaves the main diagonal of the grid, so the
    bounds test in front of punching it out of the source field always
    succeeds. *)
Theorem hole_on_diagonal st :
  reachable st →
  0 ≤ holeRow st ≤ 7 ∧ holeCol st = holeRow st ∧
  inGrid (holeRow st) (holeCol st) = true.
Proof.
  intros Hr.
  assert (H : 0 ≤ holeRow st ≤ 7 ∧ holeCol st = holeRow st).
  2:{ destruct H as [H1 H2]. split; [assumption|]. split; [assumption|].
      apply inGrid_true; lia. }
  induction Hr as [x y pot now|inp st Hr IH].
  - rewrite setup_eq. fields. unfold NECK_ROW, NECK_COL. lia.
  - pose proof (reachable_Inv _ Hr) as HI.
    unfold loop. cbv zeta.
    destruct (hole_checkFlip (angleX inp) (angleY inp) (millisFlip inp)
                (potTime inp) (millisCycle inp) st HI) as [E1 E2].
    set (st1 := checkFlip _ _ _ _ _ st) in *.
    destruct (_ >=? _); [|rewrite E1, E2; exact IH].
    set (st2 := set_lastStepMs _ st1).
    assert (H2 : 0 ≤ holeRow st2 ≤ 7 ∧ holeCol st2 = holeRow st2).
    { subst st2. fields. rewrite E1, E2. exact IH. }
    clearbody st2.
    assert (Hh : hole (step st2) = hole st2 ∨ hole (step st2) = (true, 6, 6)
                 ∨ hole (step st2) = advanceHole (hole st2)).
    { destruct (finished st2) eqn:Hf; [left; by apply hole_step_finished|].
      right. rewrite hole_step by assumption.
      destruct (spawnDue st2); [left; reflexivity|right; reflexivity]. }
    unfold hole, advanceHole in Hh.
    destruct Hh as [Hh|[Hh|Hh]].
    + injection Hh as _ -> ->. exact H2.
    + injection Hh as _ -> ->. lia.
    + destruct (topHoleActive st2); [|injection Hh as _ -> ->; exact H2].
      destruct (Z.gtb_spec (holeRow st2) 0), (Z.gtb_spec (holeCol st2) 0);
        cbn [andb] in Hh; injection Hh as _ -> ->; lia.
Qed.

Lemma hole_on_diagonal_witness :
  reachable (steadyRun 3) ∧ holeCol (steadyRun 3) = holeRow (steadyRun 3).
Proof.
  assert (H : reachable (steadyRun 3)) by apply reachable_runLoop, reach_setup.
  pose proof (hole_on_diagonal _ H) as (_ & H' & _).
  split; [exact H|exact H'].
Defined.

Lemma getGravity_quarter x y st :
  quarterTurn (lastGravity st) → quarterTurn (getGravity x y st).
Proof.
  intros H. unfold getGravity, quarterTurn.
  repeat match goal with
         | |- context [if ?b then _ else _] => destruct b
         end; auto.
Qed.

(** X10: the gravity direction the sketch remembers is always one of the
    four quarter turns, also when both tilt angles are in the dead band. *)
Theorem gravity_quarter_turn st :
  reachable st → quarterTurn (lastGravity st).
Proof.
  induction 1 as [x y pot now|inp st Hr IH].
  - rewrite setup_eq. fields. apply getGravity_quarter. by left.
  - unfold loop. cbv zeta.
    assert (E : lastGravity (checkFlip (angleX inp) (angleY inp) (millisFlip inp)
                  (potTime inp) (millisCycle inp) st)
                = getGravity (angleX inp) (angleY inp) st) by reflexivity.
    set (st1 := checkFlip _ _ _ _ _ st) in *.
    destruct (_ >=? _).
    + rewrite lastGravity_step. fields. rewrite E. by apply getGravity_quarter.
    + rewrite E. by apply getGravity_quarter.
Qed.

Lemma gravity_quarter_turn_witness :
  reachable (steadyRun 3) ∧ quarterTurn (lastGravity (steadyRun 3)).
Proof.
  assert (H : reachable (steadyRun 3)) by apply reachable_runLoop, reach_setup.
  split; [exact H|exact (gravity_quarter_turn _ H)].
Defined.


(** ** Progress of a cycle *)

Lemma orderTable_grid :
  Forall (λ v, 0 ≤ v < 8) orderTable.1 ∧ Forall (λ v, 0 ≤ v < 8) orderTable.2.
Proof. split; apply (bool_decide_unpack _); vm_compute; exact I. Qed.

Lemma aget_Forall (P : Z → Prop) l i : P 0 → Forall P l → P (aget 0 l i).
Proof.
  intros H0 Hl. unfold aget. case_decide; [|assumption].
  destruct (l !! Z.to_nat i) eqn:E; [|assumption]. simpl.
  rewrite Forall_forall in Hl. apply Hl. by eapply list_elem_of_lookup_2.
Qed.

(** Draining a cell switches no cell on. *)
Lemma drainCell_bit idx m r c :
  0 ≤ r < 8 → 0 ≤ c < 8 →
  bitAt (drainCell orderTable.1 orderTable.2 idx m) r c = true →
  bitAt m r c = true.
Proof.
  intros Hr Hc. unfold drainCell. cbv zeta.
  destruct orderTable_grid as [H1 H2].
  pose proof (aget_Forall (λ v, 0 ≤ v < 8) orderTable.1 idx ltac:(cbv beta; lia) H1) as Hr0.
  pose proof (aget_Forall (λ v, 0 ≤ v < 8) orderTable.2 idx ltac:(cbv beta; lia) H2) as Hc0.
  cbv beta in Hr0, Hc0.
  set (r0 := aget 0 orderTable.1 idx) in *.
  set (c0 := aget 0 orderTable.2 idx) in *.
  unfold bitAt. destruct (decide (r = r0)) as [->|Hne].
  - unfold aset, aget at 1. rewrite !decide_True by lia.
    destruct (decide (Z.to_nat r0 < length m)%nat) as [Hlt|Hge].
    + rewrite list_lookup_insert_eq by assumption. simpl.
      rewrite clear_bit_testbit by lia. intros H.
      by apply andb_true_iff in H as [H _].
    + rewrite list_insert_ge by lia. unfold aget.
      by rewrite decide_True by lia.
  - by rewrite aget_aset_ne by congruence.
Qed.

Lemma Inv_step_monotone st :
  Inv st →
  grainIndex st ≤ grainIndex (step st) ∧
  (∀ r c, yget (yStatic st) r c = true → yget (yStatic (step st)) r c = true) ∧
  (∀ r c, 0 ≤ r < 8 → 0 ≤ c < 8 →
     bitAt (maskX (step st)) r c = true → bitAt (maskX st) r c = true).
Proof.
  intros HI.
  destruct (finished st) eqn:Hf.
  { rewrite step_fix by assumption. split; [lia|]. split; auto. }
  pose proof (Inv_tick_kind st HI Hf) as Hk.
  pose proof (Inv_step st HI) as HI'.
  destruct HI as [H _], HI' as [H' _].
  destruct H as [HyL Hsh Hrow Hcol HoR HoC Hidx Hact Hfin HmX Hcnt Hds Hfree].
  destruct H' as [_ _ _ _ _ _ _ _ _ _ Hcnt' _ _].
  destruct Hk as [Ha Ha' Ex En Ey|Ha Ha' Ex Ey|Ha Ha' Ex Hf' Ey En].
  - rewrite Ey in *. split; [lia|]. split; [auto|].
    intros r c Hr Hc. rewrite Ex, HoR, HoC. by apply drainCell_bit.
  - rewrite Ey, Ex in *. split; [lia|]. split; auto.
  - rewrite Ex. split; [lia|]. split; [|auto].
    intros r c Hrc. rewrite Ey.
    destruct (decide ((grRow st, grCol st) = (r, c))) as [[= <- <-]|Hne].
    + apply yget_yset_eq; assumption.
    + by rewrite yget_yset_ne.
Qed.

(** X11: as long as no flip restarts the cycle, sand only moves one way:
    the drain index never goes down, a cell of [yStatic] that is true
    stays true, and a source cell that is dark stays dark. *)
Theorem sand_monotone st n :
  reachable st →
  grainIndex st ≤ grainIndex (ticks n st) ∧
  (∀ r c, yget (yStatic st) r c = true →
          yget (yStatic (ticks n st)) r c = true) ∧
  (∀ r c, 0 ≤ r < 8 → 0 ≤ c < 8 →
     bitAt (maskX (ticks n st)) r c = true → bitAt (maskX st) r c = true).
Proof.
  intros HI%reachable_Inv.
  induction n as [|n (IH1 & IH2 & IH3)]; [split; [simpl; lia|split; auto]|].
  rewrite ticks_S.
  destruct (Inv_step_monotone (ticks n st) (Inv_ticks n st HI)) as (H1 & H2 & H3).
  split; [lia|]. split.
  - intros r c Hrc. apply H2, IH2, Hrc.
  - intros r c Hr Hc Hrc. apply IH3; try assumption. by apply H3.
Qed.

Lemma sand_monotone_witness :
  reachable (steadyRun 3) ∧
  grainIndex (steadyRun 3) ≤ grainIndex (ticks 20 (steadyRun 3)).
Proof.
  assert (H : reachable (steadyRun 3)) by apply reachable_runLoop, reach_setup.
  pose proof (sand_monotone _ 20 H) as (H' & _).
  split; [exact H|exact H'].
Defined.


(** ** Every cycle comes to its end *)

(** One more grain is settled within sixteen ticks. *)
Lemma Inv_next_grain st :
  Inv st → finished st = false →
  ∃ m : nat, (1 ≤ m ≤ 16)%nat ∧
    grainActive (ticks m st) = false ∧
    grainIndex (ticks m st) = grainIndex st + 1.
Proof.
  intros HI Hf.
  assert (Hlt : grainIndex st < 64).
  { destruct HI as [H _].
    destruct H as [_ _ _ _ _ _ Hidx _ Hfin _ _ _ _]. rewrite Hfin in Hf.
    destruct (Z.geb_spec (grainIndex st) 64); [discriminate|lia]. }
  assert (Hge : 0 ≤ grainIndex st) by (destruct HI as [H _]; apply H).
  destruct (grainActive st) eqn:Ha.
  - destruct (Inv_bounds st HI) as (Hr & Hc & _).
    destruct (grain_descends 14 st Hf Ha) as (k & Hk & _ & _ & Hend & Hidx);
      [lia..|].
    exists (S k). split; [lia|]. split; [exact Hend|].
    rewrite Hidx. unfold u8. apply Z.mod_small. lia.
  - pose proof (sand_step_spawn st Hf Ha Hlt) as E.
    unfold sand, spawnGrain in E. cbv zeta in E. fields.
    injection E as E1 E2 E3 E4 E5 E6 E7 E8 E9 E10.
    destruct (grain_descends 14 (step st)) as (k & Hk & _ & _ & Hend & Hidx).
    { by rewrite E1. } { exact E5. }
    { rewrite E6. unfold NECK_ROW. lia. } { rewrite E7. unfold NECK_COL. lia. }
    { rewrite E6, E7. unfold NECK_ROW, NECK_COL. lia. }
    exists (S (S k)). split; [lia|].
    rewrite <- (ticks_step (S k) st). split; [exact Hend|].
    rewrite Hidx, E10. unfold u8. apply Z.mod_small. lia.
Qed.

Lemma Inv_terminates (k : nat) : ∀ st,
  Inv st → grainIndex st = 64 - Z.of_nat k →
  ∃ n : nat, (n ≤ 16 * k)%nat ∧ finished (ticks n st) = true.
Proof.
  induction k as [|k IH]; intros st HI Hidx.
  - exists 0%nat. split; [lia|].
    destruct (Inv_finished st HI) as (Hf & _); [lia|exact Hf].
  - destruct (finished st) eqn:Hf; [exists 0%nat; split; [lia|exact Hf]|].
    destruct (Inv_next_grain st HI Hf) as (m & Hm & _ & Hnext).
    destruct (IH (ticks m st)) as (n & Hn & Hfin).
    { by apply Inv_ticks. } { lia. }
    exists (n + m)%nat. split; [lia|]. by rewrite ticks_add.
Qed.

(** X12: left alone, every cycle finishes: from any state of a run at most
    1024 ticks without a flip lead to the finished state, with all 64
    grains settled and the source field dark. *)
Theorem cycle_terminates st :
  reachable st →
  ∃ n : nat, (n ≤ 1024)%nat ∧
    finished (ticks n st) = true ∧ grainIndex (ticks n st) = 64 ∧
    maskX (ticks n st) = replicate 8 0 ∧
    countY (yStatic (ticks n st)) = 64%nat.
Proof.
  intros HI%reachable_Inv.
  assert (Hidx : 0 ≤ grainIndex st ≤ 64) by (destruct HI as [H _]; apply H).
  destruct (Inv_terminates (Z.to_nat (64 - grainIndex st)) st HI)
    as (n & Hn & Hf); [lia|].
  exists n. split; [lia|]. split; [exact Hf|].
  pose proof (Inv_ticks n st HI) as HI'.
  assert (H64 : grainIndex (ticks n st) = 64).
  { destruct HI' as [H _].
    destruct H as [_ _ _ _ _ _ Hidx' _ Hfin _ _ _ _]. rewrite Hfin in Hf.
    destruct (Z.geb_spec (grainIndex (ticks n st)) 64); [lia|discriminate]. }
  split; [exact H64|].
  destruct (Inv_finished _ HI' H64) as (_ & _ & Hx).
  split; [exact Hx|].
  destruct HI' as [H _].
  destruct H as [_ _ _ _ _ _ _ _ _ _ Hcnt _ _]. lia.
Qed.

Lemma cycle_terminates_witness :
  reachable (steadyRun 3) ∧
  ∃ n : nat, (n ≤ 1024)%nat ∧ finished (ticks n (steadyRun 3)) = true.
Proof.
  assert (H : reachable (steadyRun 3)) by apply reachable_runLoop, reach_setup.
  destruct (cycle_terminates _ H) as (n & Hn & Hf & _).
  split; [exact H|]. exists n. split; [exact Hn|exact Hf].
Defined.


(** ** The simulation does not depend on the clock *)

Ltac clock_fields :=
  unfold setClock; fields.

Ltac split_ifs :=
  repeat first
    [ progress fields
    | match goal with
      | |- context [if ?b then _ else _] =>
          let E := fresh "E" in destruct b eqn:E; rewrite ?E in *
      end ].

Ltac finish_ifs :=
  first
    [ reflexivity
    | match goal with
      | H : false = true |- _ => discriminate H
      | H : true = false |- _ => discriminate H
      end ].

Lemma buildMaskY_setClock c st :
  buildMaskY (setClock c st) = setClock c (buildMaskY st).
Proof.
  destruct c as [[[[[d lf] lg] tm] si] ls]. destruct st.
  unfold buildMaskY. cbv zeta. clock_fields. reflexivity.
Qed.

Lemma moveHole_setClock c st :
  moveHole (setClock c st) = setClock c (moveHole st).
Proof.
  destruct c as [[[[[d lf] lg] tm] si] ls]. destruct st.
  unfold moveHole. clock_fields.
  repeat match goal with
         | |- context [if ?b then _ else _] => destruct b
         end; reflexivity.
Qed.

Lemma spawnGrain_setClock c st :
  spawnGrain (setClock c st) = setClock c (spawnGrain st).
Proof.
  destruct c as [[[[[d lf] lg] tm] si] ls]. destruct st. reflexivity.
Qed.

Lemma settleGrain_setClock c st :
  settleGrain (setClock c st) = setClock c (settleGrain st).
Proof.
  destruct c as [[[[[d lf] lg] tm] si] ls]. destruct st.
  unfold settleGrain. cbv zeta. clock_fields. split_ifs; finish_ifs.
Qed.

Lemma moveGrain_setClock c st :
  moveGrain (setClock c st) = (setClock c (moveGrain st).1, (moveGrain st).2).
Proof.
  destruct c as [[[[[d lf] lg] tm] si] ls]. destruct st.
  unfold moveGrain. cbv zeta. clock_fields. split_ifs; finish_ifs.
Qed.

Lemma step_setClock c st : step (setClock c st) = setClock c (step st).
Proof.
  assert (Ef : finished (setClock c st) = finished st)
    by (destruct c as [[[[[? ?] ?] ?] ?] ?]; reflexivity).
  assert (Ea : grainActive (setClock c st) = grainActive st)
    by (destruct c as [[[[[? ?] ?] ?] ?] ?]; reflexivity).
  assert (Ei : grainIndex (setClock c st) = grainIndex st)
    by (destruct c as [[[[[? ?] ?] ?] ?] ?]; reflexivity).
  destruct (finished st) eqn:Hf.
  { rewrite !step_finished by congruence. apply buildMaskY_setClock. }
  destruct (grainActive st) eqn:Ha.
  - pose proof (moveGrain_setClock c st) as Em.
    destruct (moveGrain st).2 eqn:Hm.
    + rewrite (step_moved st) by assumption.
      rewrite step_moved; [|congruence|congruence|by rewrite Em].
      rewrite Em. cbn [fst].
      by rewrite moveHole_setClock, buildMaskY_setClock.
    + rewrite (step_settle st) by assumption.
      rewrite step_settle; [|congruence|congruence|by rewrite Em].
      rewrite Em. cbn [fst].
      by rewrite settleGrain_setClock, moveHole_setClock, buildMaskY_setClock.
  - destruct (Z.ltb_spec (grainIndex st) 64).
    + rewrite !step_spawn by congruence.
      by rewrite spawnGrain_setClock, moveHole_setClock, buildMaskY_setClock.
    + rewrite !step_idle by congruence.
      by rewrite moveHole_setClock, buildMaskY_setClock.
Qed.

Lemma ticks_setClock n c st : ticks n (setClock c st) = setClock c (ticks n st).
Proof.
  induction n as [|n IH]; [reflexivity|].
  by rewrite !ticks_S, IH, step_setClock.
Qed.

(** ** Length of a cycle *)

Lemma finished_setClock c st : finished (setClock c st) = finished st.
Proof. destruct c as [[[[[? ?] ?] ?] ?] ?]. reflexivity. Qed.

Lemma finished_sticky n st :
  finished st = true → finished (ticks n st) = true.
Proof.
  intros H. induction n as [|n IH]; [exact H|].
  rewrite ticks_S, step_finished by assumption. exact IH.
Qed.

(** The first tick of a cycle wipes out what a restart leaves stale. *)
Lemma cycleStart_step c r c' hr hc :
  step (cycleStart c r c' hr hc)
  = setClock c (step (cycleStart (true, 0, 0, 0, 0, 0) 7 7 7 7)).
Proof.
  destruct c as [[[[[d lf] lg] tm] si] ls].
  rewrite !step_spawn by reflexivity.
  unfold cycleStart. vm_compute. reflexivity.
Qed.

Lemma cycleStart_ticks c r c' hr hc n :
  finished (ticks n (cycleStart c r c' hr hc))
  = finished (ticks n (cycleStart (true, 0, 0, 0, 0, 0) 7 7 7 7)).
Proof.
  destruct n as [|n]; [by destruct c as [[[[[? ?] ?] ?] ?] ?]|].
  rewrite <- !ticks_step, cycleStart_step, ticks_setClock.
  apply finished_setClock.
Qed.

Lemma cycleStart_length c r c' hr hc :
  finished (ticks cycleTicks (cycleStart c r c' hr hc)) = true ∧
  ∀ n, (n < cycleTicks)%nat →
       finished (ticks n (cycleStart c r c' hr hc)) = false.
Proof.
  split.
  - rewrite cycleStart_ticks. vm_compute. reflexivity.
  - intros n Hn. rewrite cycleStart_ticks.
    destruct (finished (ticks n _)) eqn:E; [|reflexivity].
    apply (finished_sticky (435 - n)) in E. rewrite <- ticks_add in E.
    replace (435 - n + n)%nat with 435%nat in E by (unfold cycleTicks in Hn; lia).
    revert E. vm_compute. discriminate.
Qed.

Lemma startNewCycle_cycleStart d pot now st :
  Inv st →
  startNewCycle d pot now st =
    cycleStart (d, lastFlipMs st, lastGravity st, getDurationFromPot pot,
                stepIntervalOf pot, now)
      (grRow st) (grCol st) (holeRow st) (holeCol st).
Proof.
  intros [H _].
  destruct H as [HyL Hsh Hrow Hcol HoR HoC Hidx Hact Hfin HmX Hcnt Hds Hfree].
  rewrite startNewCycle_eq; try assumption.
  - unfold cycleStart. by rewrite HoR, HoC.
  - rewrite HmX. apply drained_length.
Qed.

Lemma setup_cycleStart x y pot now :
  setup x y pot now =
    cycleStart (getGravity x y boot =? 90, 0, getGravity x y boot,
                getDurationFromPot pot, stepIntervalOf pot, now) 7 7 7 7.
Proof. rewrite setup_eq. reflexivity. Qed.

(** X13: every cycle takes the same number of ticks.  Whatever the
    direction, the selected duration and the state a flip interrupts, the
    cycle that starts is finished after its 436th tick and not before;
    the same holds for the cycle that [setup] starts. *)
Theorem cycle_length st d pot now x y pot0 now0 :
  reachable st →
  (finished (ticks cycleTicks (startNewCycle d pot now st)) = true ∧
   ∀ n, (n < cycleTicks)%nat →
        finished (ticks n (startNewCycle d pot now st)) = false) ∧
  (finished (ticks cycleTicks (setup x y pot0 now0)) = true ∧
   ∀ n, (n < cycleTicks)%nat →
        finished (ticks n (setup x y pot0 now0)) = false).
Proof.
  intros HI%reachable_Inv. split.
  - rewrite startNewCycle_cycleStart by assumption. apply cycleStart_length.
  - rewrite setup_cycleStart. apply cycleStart_length.
Qed.

Lemma cycle_length_witness :
  reachable (steadyRun 100) ∧
  finished (ticks cycleTicks (startNewCycle false 850 5000 (steadyRun 100)))
    = true.
Proof.
  assert (H : reachable (steadyRun 100)) by apply reachable_runLoop, reach_setup.
  pose proof (cycle_length _ false 850 5000 0 0 0 0 H) as ((H' & _) & _).
  split; [exact H|exact H'].
Defined.


(** ** The panels of a finished cycle *)

Lemma count_if_full {A} (f : A → bool) l :
  count_if f l = length l → ∀ x, x ∈ l → f x = true.
Proof.
  assert (Hle : ∀ l', (count_if f l' ≤ length l')%nat).
  { induction l' as [|y l' IH]; simpl; [lia|]. destruct (f y); lia. }
  induction l as [|y l IH]; intros H x Hx; [by apply elem_of_nil in Hx|].
  simpl in H. specialize (Hle l).
  destruct (f y) eqn:E; [|lia].
  apply elem_of_cons in Hx as [->|Hx]; [exact E|]. apply IH; [lia|exact Hx].
Qed.

Lemma countY_full_all ys r c :
  countY ys = 64%nat → 0 ≤ r < 8 → 0 ≤ c < 8 → yget ys r c = true.
Proof.
  intros H Hr Hc.
  assert (Hlen : length cells = 64%nat) by reflexivity.
  assert (Hin : (r, c) ∈ cells) by (apply elem_of_cells; lia).
  unfold countY in H. rewrite <- Hlen in H.
  exact (count_if_full (λ p, yget ys p.1 p.2) cells H (r, c) Hin).
Qed.

Lemma bitAt_full r c :
  0 ≤ r < 8 → 0 ≤ c < 8 → bitAt (replicate 8 255) r c = true.
Proof.
  intros Hr Hc. unfold bitAt.
  assert (Hz : aget 0 (replicate 8 255) r = 255).
  { unfold aget. rewrite decide_True by lia.
    rewrite lookup_replicate_2 by lia. reflexivity. }
  rewrite Hz. change 255 with (Z.ones 8). apply Z.ones_spec_low. lia.
Qed.

Lemma bitmap_full : bitmap (replicate 8 255).
Proof. split; [reflexivity|]. repeat constructor; lia. Qed.

(** X14: what a finished hourglass shows: the panel of the source field
    is all dark and the panel of the target field is all lit, whichever
    way round the hourglass stands. *)
Theorem finished_frames st :
  reachable st → finished st = true →
  (renderFrame st).2 =
    if topToBottom st
    then [(TOP_ADDR, replicate 8 0 ++ colourBytes);
          (BOT_ADDR, replicate 8 255 ++ colourBytes)]
    else [(TOP_ADDR, replicate 8 255 ++ colourBytes);
          (BOT_ADDR, replicate 8 0 ++ colourBytes)].
Proof.
  intros HI%reachable_Inv Hf.
  pose proof HI as [H _].
  destruct H as [HyL Hsh Hrow Hcol HoR HoC Hidx Hact Hfin HmX Hcnt Hds Hfree].
  assert (H64 : grainIndex st = 64).
  { rewrite Hfin in Hf.
    destruct (Z.geb_spec (grainIndex st) 64); [lia|discriminate Hf]. }
  destruct (Inv_finished st HI H64) as (_ & Ha & Hx).
  assert (Hall : ∀ r c, 0 ≤ r < 8 → 0 ≤ c < 8 → yget (yStatic st) r c = true).
  { assert (Hc64 : countY (yStatic st) = 64%nat).
    { apply Nat2Z.inj. rewrite Hcnt. exact H64. }
    intros r c Hr Hc. exact (countY_full_all _ r c Hc64 Hr Hc). }
  assert (Hsrc : ∀ r c, sourcePixel st r c = false).
  { intros r c. unfold sourcePixel. by rewrite Hx, bitAt_zero. }
  assert (Htgt : ∀ r c, 0 ≤ r < 8 → 0 ≤ c < 8 → targetPixel st r c = true).
  { intros r c Hr Hc. unfold targetPixel. by rewrite Hall. }
  destruct (renderFrame_bits st) as (top & bot & E & Htop & Hbot & Hpix).
  { rewrite Hx. apply bitmap_zero. } { assumption. }
  rewrite E.
  assert (Hdark : ∀ m, bitmap m →
    (∀ r c, 0 ≤ r < 8 → 0 ≤ c < 8 → bitAt m r c = false) → m = replicate 8 0).
  { intros m Hm Hbits. apply bitmap_ext; [assumption|apply bitmap_zero|].
    intros r c Hr Hc. by rewrite Hbits, bitAt_zero. }
  assert (Hlit : ∀ m, bitmap m →
    (∀ r c, 0 ≤ r < 8 → 0 ≤ c < 8 → bitAt m r c = true) → m = replicate 8 255).
  { intros m Hm Hbits. apply bitmap_ext; [assumption|apply bitmap_full|].
    intros r c Hr Hc. by rewrite Hbits, bitAt_full. }
  assert (Htop' : ∀ r c, 0 ≤ r < 8 → 0 ≤ c < 8 →
    bitAt top r c = if topToBottom st then false else true).
  { intros r c Hr Hc.
    destruct (Hpix (7 - c) r ltac:(lia) Hr) as [H1 _].
    replace (7 - (7 - c)) with c in H1 by lia. rewrite H1.
    destruct (topToBottom st); [apply Hsrc|apply Htgt; lia]. }
  assert (Hbot' : ∀ r c, 0 ≤ r < 8 → 0 ≤ c < 8 →
    bitAt bot r c = if topToBottom st then true else false).
  { intros r c Hr Hc.
    destruct (Hpix c (7 - r) Hc ltac:(lia)) as [_ H2].
    replace (7 - (7 - r)) with r in H2 by lia. rewrite H2.
    destruct (topToBottom st); [apply Htgt; lia|apply Hsrc]. }
  destruct (topToBottom st).
  - by rewrite (Hdark top), (Hlit bot).
  - by rewrite (Hlit top), (Hdark bot).
Qed.

Lemma finished_frames_witness :
  reachable (steadyRun 436) ∧ finished (steadyRun 436) = true ∧
  (renderFrame (steadyRun 436)).2 =
    [(18, [0; 0; 0; 0; 0; 0; 0; 0; 0; 255; 0]);
     (19, [255; 255; 255; 255; 255; 255; 255; 255; 0; 255; 0])].
Proof.
  assert (H : reachable (steadyRun 436)) by apply reachable_runLoop, reach_setup.
  assert (Hf : finished (steadyRun 436) = true) by (vm_compute; reflexivity).
  pose proof (finished_frames _ H Hf) as E.
  split; [exact H|]. split; [exact Hf|].
  rewrite E. vm_compute. reflexivity.
Defined.


(** ** Cycle start, duration and flips *)

(** X15: a cycle start refills the source field, empties the target
    field and clears grain, hole, drain index, alternation and finished
    flag, whatever sand the interrupted cycle had; it keeps the stale
    coordinates of grain and hole, the order table and the sensor
    memory. *)
Theorem startNewCycle_resets d pot now st :
  length (maskX st) = 8%nat → length (maskY st) = 8%nat →
  yshape (yStatic st) →
  let st' := startNewCycle d pot now st in
  (topToBottom st' = d ∧ finished st' = false ∧ grainIndex st' = 0 ∧
   grainActive st' = false ∧ topHoleActive st' = false ∧
   sideToggle st' = false) ∧
  (maskX st' = replicate 8 255 ∧ countX (maskX st') = 64%nat ∧
   maskY st' = replicate 8 0 ∧ countY (yStatic st') = 0%nat ∧
   mass st' = 64%nat) ∧
  (grRow st' = grRow st ∧ grCol st' = grCol st ∧
   holeRow st' = holeRow st ∧ holeCol st' = holeCol st ∧
   orderRow st' = orderRow st ∧ orderCol st' = orderCol st ∧
   lastFlipMs st' = lastFlipMs st ∧ lastGravity st' = lastGravity st).
Proof.
  intros Hx Hy Hs st'. subst st'. rewrite startNewCycle_eq by assumption.
  fields. unfold mass. fields.
  repeat split; vm_compute; reflexivity.
Qed.

Lemma startNewCycle_resets_witness :
  length (maskX (steadyRun 100)) = 8%nat ∧
  length (maskY (steadyRun 100)) = 8%nat ∧
  yshape (yStatic (steadyRun 100)) ∧
  countX (maskX (steadyRun 100)) = 52%nat ∧
  countX (maskX (startNewCycle false 850 5000 (steadyRun 100))) = 64%nat.
Proof.
  assert (H1 : length (maskX (steadyRun 100)) = 8%nat) by (vm_compute; reflexivity).
  assert (H2 : length (maskY (steadyRun 100)) = 8%nat) by (vm_compute; reflexivity).
  assert (H3 : yshape (yStatic (steadyRun 100))).
  { split; [vm_compute; reflexivity|].
    apply (bool_decide_unpack _). vm_compute. exact I. }
  pose proof (startNewCycle_resets false 850 5000 _ H1 H2 H3)
    as (_ & (_ & H & _) & _).
  split; [exact H1|]. split; [exact H2|]. split; [exact H3|].
  split; [vm_compute; reflexivity|exact H].
Defined.

Lemma startNewCycle_stepIntervalMs d pot now st :
  stepIntervalMs (startNewCycle d pot now st) = stepIntervalOf pot.
Proof.
  unfold startNewCycle, stepIntervalOf. cbv zeta.
  match goal with
  | |- context [if ?b then _ else _] => destruct b eqn:E
  end; fields; change (if 64 * 10 =? 0 then 1 else 64 * 10) with 640 in *;
    rewrite E; reflexivity.
Qed.

Lemma getDurationFromPot_values v :
  getDurationFromPot v ∈ [30000; 60000; 120000; 300000; 600000; 1800000].
Proof.
  unfold getDurationFromPot.
  repeat match goal with
         | |- context [if ?b then _ else _] => destruct b
         end; rewrite !elem_of_cons; auto 10.
Qed.

(** X16: the duration of a cycle is one of six values and the step
    interval is that duration divided by 640, between 46 ms and 2812 ms;
    the clamp of a zero interval to 1 ms never comes into play. *)
Theorem step_interval_bounds d pot now st :
  let st' := startNewCycle d pot now st in
  targetMs st' ∈ [30000; 60000; 120000; 300000; 600000; 1800000] ∧
  stepIntervalMs st' = targetMs st' / 640 ∧
  46 ≤ stepIntervalMs st' ≤ 2812.
Proof.
  intros st'. subst st'.
  rewrite startNewCycle_stepIntervalMs, startNewCycle_targetMs.
  pose proof (getDurationFromPot_values pot) as Hv.
  unfold stepIntervalOf. cbv zeta.
  generalize dependent (getDurationFromPot pot). intros t Hv.
  split; [exact Hv|].
  repeat (apply elem_of_cons in Hv as [->|Hv]);
    [..|by apply elem_of_nil in Hv]; vm_compute; repeat split; discriminate.
Qed.

(** X17: turning the pot up never selects a shorter cycle. *)
Theorem duration_monotone v w :
  v ≤ w → getDurationFromPot v ≤ getDurationFromPot w.
Proof.
  intros H. unfold getDurationFromPot.
  repeat match goal with
         | |- context [?a <? ?b] => destruct (Z.ltb_spec a b)
         end; lia.
Qed.

Lemma duration_monotone_witness :
  150 ≤ 850 ∧ getDurationFromPot 150 ≤ getDurationFromPot 850.
Proof.
  assert (H : 150 ≤ 850) by lia.
  split; [exact H|exact (duration_monotone 150 850 H)].
Defined.

Lemma getGravity_set_lastGravity x y st st' :
  lastGravity st' = getGravity x y st → getGravity x y st' = getGravity x y st.
Proof.
  intros H. unfold getGravity in *.
  repeat match goal with
         | |- context [if ?b then _ else _] => destruct b
         end; first [reflexivity|assumption].
Qed.

(** X18: a flip is not recognised twice.  After a check that accepted a
    flip, checking again with the same two tilt angles changes nothing,
    however much time has passed. *)
Theorem checkFlip_settles x y now pot nowC now' pot' nowC' st :
  flipRecognized (getGravity x y st) now st = true →
  flipRecognized (getGravity x y st) now' (checkFlip x y now pot nowC st)
    = false ∧
  checkFlip x y now' pot' nowC' (checkFlip x y now pot nowC st)
    = checkFlip x y now pot nowC st.
Proof.
  intros Hflip. set (g := getGravity x y st) in *.
  assert (E : checkFlip x y now pot nowC st =
              set_lastGravity g
                (startNewCycle (g =? 90) pot nowC (set_lastFlipMs now st))).
  { unfold checkFlip. cbv zeta. fold g. by rewrite Hflip. }
  set (st1 := checkFlip x y now pot nowC st) in *.
  assert (Hg : getGravity x y st1 = g).
  { apply getGravity_set_lastGravity. by rewrite E. }
  assert (Hd : topToBottom st1 = (g =? 90)).
  { rewrite E. fields.
    by destruct (startNewCycle_scalars (g =? 90) pot nowC (set_lastFlipMs now st))
      as (-> & _). }
  assert (Hno : flipRecognized g now' st1 = false).
  { unfold flipRecognized. rewrite Hd. by destruct (g =? 90). }
  split; [exact Hno|].
  unfold checkFlip at 1. cbv zeta. rewrite Hg, Hno.
  rewrite E. reflexivity.
Qed.

Lemma checkFlip_settles_witness :
  flipRecognized (getGravity 0 (-30) (setup 0 0 150 0)) 1000 (setup 0 0 150 0)
    = true ∧
  checkFlip 0 (-30) 5000 850 5000 (checkFlip 0 (-30) 1000 150 1000 (setup 0 0 150 0))
    = checkFlip 0 (-30) 1000 150 1000 (setup 0 0 150 0).
Proof.
  assert (H : flipRecognized (getGravity 0 (-30) (setup 0 0 150 0)) 1000
                (setup 0 0 150 0) = true).
  { rewrite setup_eq. vm_compute. reflexivity. }
  pose proof (checkFlip_settles 0 (-30) 1000 150 1000 5000 850 5000 _ H)
    as (_ & H').
  split; [exact H|exact H'].
Defined.


(** ** The exchange sort of the order generator *)

(** A loop invariant that follows the counter. *)
Lemma for_loop_inv {S} (P : Z → S → Prop) lo hi (body : Z → S → S) s :
  lo ≤ hi → P lo s →
  (∀ i s, lo ≤ i < hi → P i s → P (i + 1) (body i s)) →
  P hi (for_loop lo hi body s).
Proof.
  unfold for_loop. intros Hle Hs Hbody.
  remember (Z.to_nat (hi - lo)) as k eqn:Hk.
  revert lo s Hle Hs Hbody Hk.
  induction k as [|k IH]; intros lo s Hle Hs Hbody Hk.
  - assert (lo = hi) as -> by lia. rewrite seqZ_nil by lia. exact Hs.
  - rewrite seqZ_cons by lia. cbn [foldl].
    replace (Z.pred (hi - lo)) with (hi - Z.succ lo) by lia.
    apply IH; try lia.
    + replace (Z.succ lo) with (lo + 1) by lia. apply Hbody; [lia|exact Hs].
    + intros i s' Hi Hs'. apply Hbody; [lia|exact Hs'].
Qed.

Lemma for_loop_empty {S} lo hi (body : Z → S → S) s :
  hi ≤ lo → for_loop lo hi body s = s.
Proof. intros H. unfold for_loop. by rewrite seqZ_nil by lia. Qed.

Lemma aget_lookup {A} (d : A) l (i : nat) x :
  l !! i = Some x → aget d l (Z.of_nat i) = x.
Proof.
  intros H. unfold aget. rewrite decide_True by lia.
  by rewrite Nat2Z.id, H.
Qed.

(** [tmp = a[i]; a[i] = a[j]; a[j] = tmp] *)
Lemma swap_spec {A} (d : A) (a : list A) i j :
  0 ≤ i < Z.of_nat (length a) → 0 ≤ j < Z.of_nat (length a) → i ≠ j →
  let a' := aset (aset a i (aget d a j)) j (aget d a i) in
  length a' = length a ∧ a' ≡ₚ a ∧
  aget d a' i = aget d a j ∧ aget d a' j = aget d a i ∧
  ∀ k, k ≠ i → k ≠ j → aget d a' k = aget d a k.
Proof.
  intros Hi Hj Hij a'. subst a'.
  destruct (aget_length d a i Hi) as (x & Hx & ->).
  destruct (aget_length d a j Hj) as (y & Hy & ->).
  split; [by rewrite !length_aset|]. split.
  - unfold aset. rewrite !decide_True by lia.
    by apply Permutation_insert_swap.
  - split; [|split].
    + rewrite aget_aset_ne by congruence. by rewrite aget_aset_eq.
    + by rewrite aget_aset_eq by (rewrite length_aset; lia).
    + intros k Hki Hkj. by rewrite !aget_aset_ne by congruence.
Qed.

Lemma inner_loop orig i a0 :
  let n := Z.of_nat (length orig) in
  0 ≤ i → i + 1 ≤ n → length a0 = length orig →
  innerSorted orig i a0 n
    (for_loop (i + 1) n (λ j nodes,
       if node_d (aget node0 nodes j) <? node_d (aget node0 nodes i) then
         let tmp := aget node0 nodes i in
         let nodes := aset nodes i (aget node0 nodes j) in
         aset nodes j tmp
       else nodes) a0).
Proof.
  intros n Hi Hin Hlen.
  apply (for_loop_inv (innerSorted orig i a0)); [lia| |]; unfold innerSorted;
    fold n.
  - split; [assumption|]. split; [reflexivity|]. split; [auto|].
    split; [intros l Hl; exists l; auto|]. intros k Hk. lia.
  - intros j a Hj (Hl & Hp & Hpre & Hsuf & Hmin). cbv zeta.
    destruct (Z.ltb_spec (node_d (aget node0 a j)) (node_d (aget node0 a i)))
      as [Hlt|Hge].
    + destruct (swap_spec node0 a i j) as (Hl' & Hp' & Ei & Ej & Eo);
        [lia..|].
      cbv zeta in Hl', Hp', Ei, Ej, Eo.
      set (a' := aset (aset a i (aget node0 a j)) j (aget node0 a i)) in *.
      split; [congruence|]. split; [by rewrite Hp'|]. split; [|split].
      * intros k Hk. rewrite Eo by lia. by apply Hpre.
      * intros l Hl2.
        destruct (decide (l = i)) as [->|Hli]; [rewrite Ei; apply Hsuf; lia|].
        destruct (decide (l = j)) as [->|Hlj]; [rewrite Ej; apply Hsuf; lia|].
        rewrite Eo by assumption. by apply Hsuf.
      * intros k Hk. unfold nodeKey. rewrite Ei.
        destruct (decide (k = j)) as [->|Hkj]; [rewrite Ej; lia|].
        rewrite Eo by lia. specialize (Hmin k ltac:(lia)).
        unfold nodeKey in Hmin.
        lia.
    + split; [assumption|]. split; [assumption|]. split; [assumption|].
      split; [assumption|]. intros k Hk.
      destruct (decide (k = j)) as [->|Hkj]; [unfold nodeKey; lia|].
      apply Hmin. lia.
Qed.

Lemma outer_loop orig :
  outerSorted orig (Z.max 0 (Z.of_nat (length orig) - 1)) (sortNodes orig).
Proof.
  unfold sortNodes. cbv zeta. set (n := Z.of_nat (length orig)).
  destruct (decide (n - 1 ≤ 0)) as [Hsmall|Hbig].
  { rewrite for_loop_empty by lia.
    split; [reflexivity|]. split; [reflexivity|]. intros k l Hk Hl. lia. }
  unfold outerSorted. fold n.
  replace (Z.max 0 (n - 1)) with (n - 1) by lia.
  apply (for_loop_inv (λ I a,
    length a = length orig ∧ a ≡ₚ orig ∧
    ∀ k l, 0 ≤ k < I → k < l < n → nodeKey a k ≤ nodeKey a l)); [lia| |].
  - split; [reflexivity|]. split; [reflexivity|]. intros k l Hk. lia.
  - intros i a Hi (Hl & Hp & Hsorted).
    destruct (inner_loop orig i a) as (Hl' & Hp' & Hpre & Hsuf & Hmin);
      [fold n; lia|fold n; lia|assumption|]. fold n in Hsuf, Hmin.
    fold n in Hl', Hp', Hpre. set (a' := for_loop (i + 1) n _ a) in *.
    split; [assumption|]. split; [by rewrite Hp'|].
    intros k l Hk Hkl.
    destruct (decide (k = i)) as [->|Hki]; [apply Hmin; lia|].
    unfold nodeKey. rewrite (Hpre k) by lia.
    destruct (decide (l < i)) as [Hli|Hli].
    + rewrite (Hpre l) by lia. apply Hsorted; lia.
    + destruct (Hsuf l ltac:(lia)) as (l' & Hl'2 & ->). apply Hsorted; lia.
Qed.

Lemma StronglySorted_lookup {A} (R : A → A → Prop) (l : list A) :
  (∀ i j a b, (i < j)%nat → l !! i = Some a → l !! j = Some b → R a b) →
  StronglySorted R l.
Proof.
  induction l as [|x l IH]; intros H; constructor.
  - apply IH. intros i j a b Hij Ha Hb. apply (H (S i) (S j)); [lia|done..].
  - apply Forall_forall. intros y Hy.
    apply list_elem_of_lookup in Hy as [j Hj].
    apply (H 0%nat (S j)); [lia|done..].
Qed.

(** X19: the exchange sort of the order generator sorts: whatever the
    nodes it is given, its result holds the same nodes in ascending order
    of their distance [d]. *)
Theorem sortNodes_sorts nodes :
  sortNodes nodes ≡ₚ nodes ∧
  StronglySorted (λ a b, node_d a ≤ node_d b) (sortNodes nodes).
Proof.
  destruct (outer_loop nodes) as (Hl & Hp & Hs).
  split; [exact Hp|].
  apply StronglySorted_lookup. intros i j a b Hij Ha Hb.
  pose proof (lookup_lt_Some _ _ _ Hb) as Hj. rewrite Hl in Hj.
  specialize (Hs (Z.of_nat i) (Z.of_nat j) ltac:(lia) ltac:(lia)).
  unfold nodeKey in Hs.
  by rewrite (aget_lookup node0 _ i a Ha), (aget_lookup node0 _ j b Hb) in Hs.
Qed.


(** ** Collecting an anti-diagonal *)

Lemma foldl_collect {A} (P : Z → bool) (f : Z → A) l acc :
  foldl (λ nodes r, if P r then nodes ++ [f r] else nodes) acc l
  = acc ++ (l ≫= λ r, if P r then [f r] else []).
Proof.
  revert acc. induction l as [|r l IH]; intros acc; csimpl.
  - by rewrite app_nil_r.
  - rewrite IH. destruct (P r); [by rewrite <- app_assoc|reflexivity].
Qed.

Lemma length_bind_le {A B} (g : A → list B) l :
  (∀ x, (length (g x) ≤ 1)%nat) → (length (l ≫= g) ≤ length l)%nat.
Proof.
  intros Hg. induction l as [|x l IH]; csimpl; [lia|].
  rewrite length_app. specialize (Hg x). lia.
Qed.

Lemma collectDiagonal_bind s :
  collectDiagonal s =
    seqZ 0 8 ≫= λ r,
      if (0 <=? s - r) && (s - r <? 8)
      then [mkNode r (s - r) (Z.abs (r - (s - r)))] else [].
Proof.
  unfold collectDiagonal, for_loop. cbv zeta.
  rewrite (foldl_collect (λ r, (0 <=? s - r) && (s - r <? 8))
             (λ r, mkNode (u8 r) (u8 (s - r))
                     (u8 (if r - (s - r) <? 0 then - (r - (s - r))
                          else r - (s - r))))).
  cbn [app]. apply Forall_bind_ext, Forall_forall.
  intros r Hr. apply elem_of_seqZ in Hr.
  destruct (Z.leb_spec 0 (s - r)), (Z.ltb_spec (s - r) 8); cbn [andb];
    try reflexivity.
  rewrite !u8_small by (destruct (Z.ltb_spec (r - (s - r)) 0); lia).
  do 2 f_equal. destruct (Z.ltb_spec (r - (s - r)) 0); lia.
Qed.

(** X20: for every [s] the collecting loop gathers exactly the cells of
    the grid with [row + col = s], each with its distance from the main
    diagonal, and never more than the eight the array [nodes] can hold. *)
Theorem collectDiagonal_spec s nd :
  (length (collectDiagonal s) ≤ 8)%nat ∧
  (nd ∈ collectDiagonal s ↔
     0 ≤ node_r nd < 8 ∧ 0 ≤ node_c nd < 8 ∧
     node_r nd + node_c nd = s ∧
     node_d nd = Z.abs (node_r nd - node_c nd)).
Proof.
  rewrite collectDiagonal_bind. split.
  - change 8%nat with (length (seqZ 0 8)). apply length_bind_le.
    intros r. destruct (_ && _); simpl; lia.
  - rewrite list_elem_of_bind. split.
    + intros (r & Hnd & Hr). apply elem_of_seqZ in Hr.
      destruct (Z.leb_spec 0 (s - r)), (Z.ltb_spec (s - r) 8);
        cbn [andb] in Hnd; try (by apply elem_of_nil in Hnd).
      apply list_elem_of_singleton in Hnd as ->. simpl.
      repeat split; lia.
    + intros (Hr & Hc & Hs & Hd). exists (node_r nd). split.
      * destruct (Z.leb_spec 0 (s - node_r nd)), (Z.ltb_spec (s - node_r nd) 8);
          cbn [andb]; try lia.
        apply list_elem_of_singleton. destruct nd as [r c d]. simpl in *.
        subst. f_equal; lia.
      * apply elem_of_seqZ. lia.
Qed.

(** ** The order table and the fields *)

(** X21: the order generator writes all 64 entries of both arrays: on
    arrays of 64 entries its result is the same table whatever they held
    before. *)
Theorem buildOrderDiagonal_overwrites oR oC :
  length oR = 64%nat → length oC = 64%nat →
  buildOrderDiagonal oR oC = orderTable.
Proof.
  intros HR HC.
  do 64 (destruct oR as [|? oR]; [discriminate HR|]).
  destruct oR; [|discriminate HR].
  do 64 (destruct oC as [|? oC]; [discriminate HC|]).
  destruct oC; [|discriminate HC].
  vm_compute. reflexivity.
Qed.

Lemma buildOrderDiagonal_overwrites_witness :
  length (replicate 64 9) = 64%nat ∧
  buildOrderDiagonal (replicate 64 9) (replicate 64 (-1)) = orderTable.
Proof.
  assert (H1 : length (replicate 64 9) = 64%nat) by reflexivity.
  assert (H2 : length (replicate 64 (-1)) = 64%nat) by reflexivity.
  split; [exact H1|exact (buildOrderDiagonal_overwrites _ _ H1 H2)].
Defined.

(** X22: the settled sand never overhangs.  In every reachable state the
    drain index counts the true cells of [yStatic], and below and to the
    left of a settled cell every cell of the grid is settled. *)
Theorem heap_without_overhang st :
  reachable st →
  Z.of_nat (countY (yStatic st)) = grainIndex st ∧
  ∀ r c r' c',
    yget (yStatic st) r c = true →
    0 ≤ r' ≤ r → r ≤ 7 → 0 ≤ c' ≤ c → c ≤ 7 →
    yget (yStatic st) r' c' = true.
Proof.
  intros HI%reachable_Inv.
  destruct HI as [H _].
  destruct H as [HyL Hsh Hrow Hcol HoR HoC Hidx Hact Hfin HmX Hcnt Hds Hfree].
  split; [exact Hcnt|].
  intros r c r' c' Hrc Hr' Hr Hc' Hc. by apply (downset_below _ r c).
Qed.

Lemma heap_without_overhang_witness :
  reachable (steadyRun 124) ∧
  countY (yStatic (steadyRun 124)) = 15%nat ∧
  grainIndex (steadyRun 124) = 15 ∧
  yget (yStatic (steadyRun 124)) 2 3 = true ∧
  yget (yStatic (steadyRun 124)) 1 2 = true.
Proof.
  assert (H : reachable (steadyRun 124)) by apply reachable_runLoop, reach_setup.
  assert (Hi : grainIndex (steadyRun 124) = 15) by (vm_compute; reflexivity).
  assert (H' : yget (yStatic (steadyRun 124)) 2 3 = true)
    by (vm_compute; reflexivity).
  pose proof (heap_without_overhang _ H) as (Hcnt & Hbelow).
  rewrite Hi in Hcnt.
  pose proof (Hbelow 2 3 1 2 H' ltac:(lia) ltac:(lia) ltac:(lia) ltac:(lia))
    as E.
  split; [exact H|]. split; [lia|]. split; [exact Hi|].
  split; [exact H'|exact E].
Defined.

Lemma drained_order :
  ∀ k i : nat, (k ≤ 64)%nat → (i < 64)%nat →
    bitAt (drained k) (aget 0 orderTable.1 (Z.of_nat i))
      (aget 0 orderTable.2 (Z.of_nat i)) = negb (i <? k)%nat.
Proof.
  assert (H : forallb (λ k, forallb (λ i,
      eqb (bitAt (drained k) (aget 0 orderTable.1 (Z.of_nat i))
             (aget 0 orderTable.2 (Z.of_nat i))) (negb (i <? k)%nat))
      (seq 0 64)) (seq 0 65) = true) by (vm_compute; reflexivity).
  intros k i Hk Hi. rewrite forallb_forall in H.
  specialize (H k ltac:(apply in_seq; lia)). rewrite forallb_forall in H.
  specialize (H i ltac:(apply in_seq; lia)). by apply eqb_prop in H.
Qed.

(** X23: the source field goes dark in drain order: the cell of entry [i]
    of the order table is lit exactly as long as fewer than [i + 1] grains
    have been spawned in the cycle. *)
Theorem source_follows_order st i :
  reachable st → 0 ≤ i < 64 →
  bitAt (maskX st) (aget 0 (orderRow st) i) (aget 0 (orderCol st) i)
    = negb (i <? grainIndex st + b2z (grainActive st)).
Proof.
  intros HI%reachable_Inv Hi.
  destruct HI as [H _].
  destruct H as [HyL Hsh Hrow Hcol HoR HoC Hidx Hact Hfin HmX Hcnt Hds Hfree].
  rewrite HmX, HoR, HoC.
  assert (Hk : 0 ≤ grainIndex st + b2z (grainActive st) ≤ 64).
  { destruct (grainActive st); unfold b2z; [specialize (Hact eq_refl)|]; lia. }
  generalize dependent (grainIndex st + b2z (grainActive st)). intros k _ Hk.
  replace i with (Z.of_nat (Z.to_nat i)) at 1 2 by lia.
  rewrite drained_order by lia. f_equal.
  destruct (Nat.ltb_spec (Z.to_nat i) (Z.to_nat k)), (Z.ltb_spec i k);
    (reflexivity || lia).
Qed.

Lemma source_follows_order_witness :
  reachable (steadyRun 124) ∧ 0 ≤ 20 < 64 ∧
  bitAt (maskX (steadyRun 124)) (aget 0 (orderRow (steadyRun 124)) 20)
    (aget 0 (orderCol (steadyRun 124)) 20) = true.
Proof.
  assert (H : reachable (steadyRun 124)) by apply reachable_runLoop, reach_setup.
  assert (H' : 0 ≤ 20 < 64) by lia.
  pose proof (source_follows_order _ 20 H H') as E.
  split; [exact H|]. split; [exact H'|]. rewrite E. vm_compute. reflexivity.
Defined.
